(** * Atom solver (Atom/atom.hpp): a shallow embedding and its properties

    The header defines two overloads of [executeAtomSolver], the residual
    callback [computeAtomResiduals] and the parameter bundle
    [AtomParameters].  The code is a C++ template over [Integer], [Real]
    and [Vector]; here [Integer] is [Z], [Real] is a type parameter with
    the two operations the code applies to it, and [Vector] is a list of
    reals indexed from 0.

    What the header calls but does not define is a parameter of the
    development: the GSL root-finder (hybrids solver, step test, error
    strings), the SGP4 propagator, the Cartesian-to-TLE conversion and the
    two table printers. *)

From Stdlib Require Import ZArith QArith Qabs List String Bool Lia.
From stdpp Require Import base list.
Import ListNotations.
Local Open Scope Z_scope.

(** ** Outcomes and the state-and-exception monad *)

(** A C++ exception in flight.  [std::runtime_error] is what the solver
    itself throws; the conversion and the propagator throw their own. *)
Inductive exception : Type :=
  | runtime_error (what : string)
  | library_exception (what : string).

(** How a call ends: it returns, it throws, it reads a [Vector] or
    [gsl_vector] outside its bounds (undefined behaviour, or the range
    check of GSL aborting), or the model's loop bound is used up (shown
    below never to happen). *)
Inductive result (A : Type) : Type :=
  | Normal (a : A)
  | Throw (e : exception)
  | Undefined
  | OutOfFuel.
Arguments Normal {A} a.
Arguments Throw {A} e.
Arguments Undefined {A}.
Arguments OutOfFuel {A}.

(** What [operator<<] inserts into [std::cerr]. *)
Inductive Out : Type :=
  | OStr (s : string)
  | OInt (n : Z)
  | OEndl.

(** The template parameter [Real]: subtraction and division are what the
    header applies to it; [Rzero] is what a [Vector( n )] is filled with,
    [uninitialized] the content of freshly allocated GSL memory, and
    [Real_of_Q] the conversion of a decimal literal. *)
Class RealOps : Type := {
  Real : Type;
  Rzero : Real;
  uninitialized : Real;
  Rsub : Real -> Real -> Real;
  Rdiv : Real -> Real -> Real;
  Real_of_Q : Q -> Real
}.

Section Data.

Context `{RealOps}.

Definition Vector : Type := list Real.
Definition gsl_vector : Type := list Real.

(** libsgp4's three-component vector and Earth-centred inertial state. *)
Record Vector3 : Type := mkVector3 { x : Real; y : Real; z : Real }.
Record Eci : Type := mkEci { Position : Vector3; Velocity : Vector3 }.

(** Calls that leave the header, in the order they are made. *)
Inductive Event : Type :=
  | EvSolverSet (initialGuess : gsl_vector)
  | EvSolverIterate
  | EvConvert (state : Vector)
  | EvFindPosition (timeOfFlight : Real).

(** The state a call runs in: the two variables the caller binds to the
    reference parameters, the standard error stream and the log of
    outside calls. *)
Record State : Type := mkState {
  solverStatusSummary : string;
  numberOfIterations : Z;
  cerr : list Out;
  calls : list Event
}.

Definition M (A : Type) : Type := State -> result A * State.

Definition ret {A} (a : A) : M A := fun st => (Normal a, st).

Definition bind {A B} (m : M A) (k : A -> M B) : M B :=
  fun st =>
    match m st with
    | (Normal a, st') => k a st'
    | (Throw e, st') => (Throw e, st')
    | (Undefined, st') => (Undefined, st')
    | (OutOfFuel, st') => (OutOfFuel, st')
    end.

Definition throw {A} (e : exception) : M A := fun st => (Throw e, st).
Definition undefined {A} : M A := fun st => (Undefined, st).
Definition out_of_fuel {A} : M A := fun st => (OutOfFuel, st).

Definition log (e : Event) : M unit :=
  fun st => (Normal tt,
             mkState (solverStatusSummary st) (numberOfIterations st)
                     (cerr st) (calls st ++ [e])).

Definition cerr_write (o : list Out) : M unit :=
  fun st => (Normal tt,
             mkState (solverStatusSummary st) (numberOfIterations st)
                     (cerr st ++ o) (calls st)).

Definition set_numberOfIterations (n : Z) : M unit :=
  fun st => (Normal tt,
             mkState (solverStatusSummary st) n (cerr st) (calls st)).

Definition set_solverStatusSummary (s : string) : M unit :=
  fun st => (Normal tt,
             mkState s (numberOfIterations st) (cerr st) (calls st)).

(** A fallible outside call: its exception unwinds through the caller. *)
Definition lift_call {A} (r : exception + A) : M A :=
  match r with
  | inl e => throw e
  | inr a => ret a
  end.

(** *** What a call does to the state

    Every operation above extends the two streams and at most
    overwrites the two referenced variables; an [Effect] records that,
    so that a call can be said to do the same from every state. *)
Record Effect : Type := mkEffect {
  e_summary : option string;
  e_iterations : option Z;
  e_cerr : list Out;
  e_calls : list Event
}.

Definition apply (e : Effect) (st : State) : State :=
  mkState (from_option id (solverStatusSummary st) (e_summary e))
          (from_option id (numberOfIterations st) (e_iterations e))
          (cerr st ++ e_cerr e)
          (calls st ++ e_calls e).

Definition seq_effect (e1 e2 : Effect) : Effect :=
  mkEffect (match e_summary e2 with
            | Some s => Some s
            | None => e_summary e1
            end)
           (match e_iterations e2 with
            | Some n => Some n
            | None => e_iterations e1
            end)
           (e_cerr e1 ++ e_cerr e2)
           (e_calls e1 ++ e_calls e2).

(** An effect that leaves the referenced variables alone. *)
Definition silent (e : Effect) : Prop :=
  e_summary e = None /\ e_iterations e = None.

(** [regular q t m]: [m] ends the same way and has the same effect from
    every state; with [q] the effect is silent, with [t] the loop bound
    of the model is not what ends it. *)
Definition regular (q t : bool) {A} (m : M A) : Prop :=
  exists (r : result A) (e : Effect),
    (q = true -> silent e) /\ (t = true -> r <> OutOfFuel) /\
    forall st, m st = (r, apply e st).

(** The root-finder calls the residual function back: a computation of
    GSL is a tree of such calls, each handing over the point and the
    buffer for the residuals and going on from the status and the buffer
    it gets back. *)
Inductive Callback (A : Type) : Type :=
  | Done (a : A)
  | Call (point buffer : gsl_vector)
         (k : Z * gsl_vector -> Callback A).
End Data.

Arguments Done {_ A} a.
Arguments Call {_ A} point buffer k.

Notation "v <- m ;; k" := (bind m (fun v => k))
  (at level 100, m at next level, right associativity).
Notation "m ;;; k" := (bind m (fun _ => k))
  (at level 100, right associativity).



(** What the header takes from outside.

    libsgp4: [DateTime], [Tle], the propagator object [SGP4] with its
    constructor and [FindPosition], and the constants [kMU] and [kXKMPER]
    of Globals.h.  GSL: the [gsl_multiroot_fsolver] of dimension 3, of
    which the header reads the iterate [x], the last step [dx] and the
    residuals [f], with its three operations and [gsl_strerror].
    Atom/convertCartesianStateToTwoLineElements.hpp: the conversion; its
    two reference arguments are locals of the caller that are never read
    again.  Atom/printFunctions.hpp: the two table printers. *)
Class Outside `{RealOps} : Type := {
  DateTime : Type;
  Tle : Type;
  SGP4 : Type;
  Tle_default : Tle;
  kMU : Real;
  kXKMPER : Real;
  fsolver : Type;
  fsolver_x : fsolver -> gsl_vector;
  fsolver_dx : fsolver -> gsl_vector;
  fsolver_f : fsolver -> gsl_vector;
  gsl_multiroot_fsolver_set : gsl_vector -> Callback fsolver;
  gsl_multiroot_fsolver_iterate : fsolver -> Callback (Z * fsolver);
  gsl_multiroot_test_delta : gsl_vector -> gsl_vector -> Real -> Real -> Z;
  gsl_strerror : Z -> string;
  convertCartesianStateToTwoLineElements :
    Vector -> DateTime -> Tle -> Real -> Real -> Real -> Real -> Z ->
    exception + Tle;
  SGP4_new : Tle -> exception + SGP4;
  FindPosition : SGP4 -> Real -> exception + Eci;
  printAtomSolverStateTableHeader : string;
  printAtomSolverState : Z -> fsolver -> string
}.

Section Atom.

Context `{Outside}.

(** ** Vectors *)

(** [Vector v( n )]: [n] value-initialised components. *)
Definition Vector_new (n : nat) : Vector := replicate n Rzero.

(** [v[ i ]] read: outside the bounds the behaviour is undefined. *)
Definition Vector_get (v : Vector) (i : Z) : M Real :=
  if i <? 0 then undefined
  else match v !! Z.to_nat i with
       | Some r => ret r
       | None => undefined
       end.

(** [v[ i ] = r]. *)
Definition Vector_set (v : Vector) (i : Z) (r : Real) : M Vector :=
  if (0 <=? i) && (i <? Z.of_nat (length v))
  then ret (<[Z.to_nat i := r]> v)
  else undefined.

Definition gsl_vector_alloc (n : nat) : gsl_vector :=
  replicate n uninitialized.

Definition gsl_vector_get (v : gsl_vector) (i : Z) : M Real :=
  Vector_get v i.

Definition gsl_vector_set (v : gsl_vector) (i : Z) (r : Real)
  : M gsl_vector :=
  Vector_set v i r.

(** [for ( Integer i = first; ...; i++ )] with [n] passes, threading what
    the body updates. *)
Fixpoint for_loop {A} (n : nat) (i : Z) (body : Z -> A -> M A) (a : A)
  : M A :=
  match n with
  | O => ret a
  | S n' => a' <- body i a ;; for_loop n' (i + 1) body a'
  end.

(** GSL status codes (gsl_errno.h). *)
Definition GSL_SUCCESS : Z := 0.
Definition GSL_CONTINUE : Z := -2.

(** ** AtomParameters *)

Record AtomParameters : Type := mkAtomParameters {
  departurePosition : Vector;
  departureEpoch : DateTime;
  targetPosition : Vector;
  timeOfFlight : Real;
  earthGravitationalParameter : Real;
  earthMeanRadius : Real;
  referenceTle : Tle;
  absoluteTolerance : Real;
  relativeTolerance : Real;
  maximumIterations : Z
}.

(** ** computeAtomResiduals *)

(** The departure state built by both functions (lines 272 to 280 and 379
    to 387): a [Vector] of six, the position in 0..2 and the velocity in
    3..5. *)
Definition makeDepartureState (position velocity : Vector) : M Vector :=
  let departureState := Vector_new 6 in
  departureState <- for_loop 3 0 (fun i departureState =>
      p <- Vector_get position i ;;
      Vector_set departureState i p) departureState ;;
  for_loop 3 0 (fun i departureState =>
      v <- Vector_get velocity i ;;
      Vector_set departureState (i + 3) v) departureState.

(** Conversion to a TLE, then propagation by the time of flight (lines
    283 to 299 and 390 to 406). *)
Definition propagateDepartureState (departureState : Vector)
    (epoch : DateTime) (reference : Tle) (mu radius absTol relTol : Real)
    (maxIter : Z) (tof : Real) : M Eci :=
  log (EvConvert departureState) ;;;
  departureTle <- lift_call (convertCartesianStateToTwoLineElements
      departureState epoch reference mu radius absTol relTol maxIter) ;;
  sgp4 <- lift_call (SGP4_new departureTle) ;;
  log (EvFindPosition tof) ;;;
  lift_call (FindPosition sgp4 tof).

(** Lines 336 to 417; the ten parameters are read from the bundle where
    they are used. *)
Definition computeAtomResiduals (independentVariables : gsl_vector)
    (parameters : AtomParameters) (residuals : gsl_vector)
  : M (Z * gsl_vector) :=
  let targetPosition := targetPosition parameters in
  let earthMeanRadius := earthMeanRadius parameters in
  departureVelocity <- for_loop 3 0 (fun i departureVelocity =>
      v <- gsl_vector_get independentVariables i ;;
      Vector_set departureVelocity i v) (Vector_new 3) ;;
  departureState <-
    makeDepartureState (departurePosition parameters) departureVelocity ;;
  arrivalState <- propagateDepartureState departureState
      (departureEpoch parameters) (referenceTle parameters)
      (earthGravitationalParameter parameters) earthMeanRadius
      (absoluteTolerance parameters) (relativeTolerance parameters)
      (maximumIterations parameters) (timeOfFlight parameters) ;;
  t0 <- Vector_get targetPosition 0 ;;
  residuals <- gsl_vector_set residuals 0
      (Rdiv (Rsub (x (Position arrivalState)) t0) earthMeanRadius) ;;
  t1 <- Vector_get targetPosition 1 ;;
  residuals <- gsl_vector_set residuals 1
      (Rdiv (Rsub (y (Position arrivalState)) t1) earthMeanRadius) ;;
  t2 <- Vector_get targetPosition 2 ;;
  residuals <- gsl_vector_set residuals 2
      (Rdiv (Rsub (z (Position arrivalState)) t2) earthMeanRadius) ;;
  ret (GSL_SUCCESS, residuals).

(** Running a computation of GSL that holds the [gsl_multiroot_function]
    made of [computeAtomResiduals] and the parameters. *)
Fixpoint run_gsl {A} (parameters : AtomParameters) (c : Callback A)
  : M A :=
  match c with
  | Done a => ret a
  | Call point buffer k =>
      r <- computeAtomResiduals point parameters buffer ;;
      run_gsl parameters (k r)
  end.

(** The two adapter calls as one fallible function of the state. *)
Definition adapters (parameters : AtomParameters) (state : Vector)
  : exception + Eci :=
  match convertCartesianStateToTwoLineElements state
          (departureEpoch parameters) (referenceTle parameters)
          (earthGravitationalParameter parameters)
          (earthMeanRadius parameters)
          (absoluteTolerance parameters) (relativeTolerance parameters)
          (maximumIterations parameters) with
  | inl e => inl e
  | inr departureTle =>
      match SGP4_new departureTle with
      | inl e => inl e
      | inr sgp4 => FindPosition sgp4 (timeOfFlight parameters)
      end
  end.

(** The residual in the words of the design: concatenate position and
    candidate velocity, convert and propagate, subtract the target
    component-wise, divide each component by the body radius. *)
Definition residual_by_design (parameters : AtomParameters)
    (candidateVelocity : Vector) : exception + Vector :=
  match adapters parameters
          (departurePosition parameters ++ candidateVelocity) with
  | inl e => inl e
  | inr arrival =>
      let propagated :=
        [x (Position arrival); y (Position arrival);
         z (Position arrival)] in
      inr (map (fun d => Rdiv d (earthMeanRadius parameters))
               (zip_with Rsub propagated (targetPosition parameters)))
  end.

(** ** The status summary buffer *)

(** What is inserted into the [std::ostringstream] [summary], in order. *)
Inductive SummaryItem : Type :=
  | SHeader
  | SRow (counter : Z) (solver : fsolver)
  | SText (s : string)
  | SEndl.

Definition ostringstream : Type := list SummaryItem.

Definition endl : string := String (Ascii.ascii_of_nat 10) EmptyString.

Definition render (i : SummaryItem) : string :=
  match i with
  | SHeader => printAtomSolverStateTableHeader
  | SRow counter solver => printAtomSolverState counter solver
  | SText s => s
  | SEndl => endl
  end.

(** [summary.str( )]. *)
Definition str (summary : ostringstream) : string :=
  String.concat "" (map render summary).

(** The rows of the table held by a buffer. *)
Fixpoint rows (summary : ostringstream) : list (Z * fsolver) :=
  match summary with
  | [] => []
  | SRow counter solver :: rest => (counter, solver) :: rows rest
  | _ :: rest => rows rest
  end.

(** What follows the table: a blank line, the status and another. *)
Definition status_lines (solverStatus : Z) : ostringstream :=
  [SEndl; SText "Status of non-linear solver: ";
   SText (gsl_strerror solverStatus); SEndl; SEndl].

(** ** executeAtomSolver *)

Section ExecuteAtomSolver.

Variables (departurePosition : Vector) (departureEpoch : DateTime)
          (arrivalPosition : Vector) (timeOfFlight : Real)
          (departureVelocityGuess : Vector)
          (referenceTle : Tle)
          (earthGravitationalParameter earthMeanRadius : Real)
          (absoluteTolerance relativeTolerance : Real)
          (maximumIterations : Z).

Definition parameters : AtomParameters :=
  mkAtomParameters departurePosition departureEpoch arrivalPosition
    timeOfFlight earthGravitationalParameter earthMeanRadius
    referenceTle absoluteTolerance relativeTolerance maximumIterations.

(** [gsl_multiroot_fsolver_set( solver, &atomFunction, initialGuess )]. *)
Definition solver_set (initialGuess : gsl_vector) : M fsolver :=
  log (EvSolverSet initialGuess) ;;;
  run_gsl parameters (gsl_multiroot_fsolver_set initialGuess).

(** [gsl_multiroot_fsolver_iterate( solver )]. *)
Definition solver_iterate (solver : fsolver) : M (Z * fsolver) :=
  log EvSolverIterate ;;;
  run_gsl parameters (gsl_multiroot_fsolver_iterate solver).

(** What the header writes to [std::cerr] before it throws. *)
Definition stuck_report (solverStatus : Z) (summary : ostringstream)
  : list Out :=
  [OStr "GSL solver status: "; OInt solverStatus; OEndl;
   OStr (str summary); OEndl; OEndl].

Definition stuck : exception :=
  runtime_error "ERROR: Non-linear solver is stuck!".

(** One pass of the body of the do-while loop; it yields the status of
    the step test, the counter, the solver and the buffer. *)
Definition loop_body (counter : Z) (solver : fsolver)
    (summary : ostringstream)
  : M (Z * Z * fsolver * ostringstream) :=
  let summary := summary ++ [SRow counter solver] in
  let counter := counter + 1 in
  r <- solver_iterate solver ;;
  let '(solverStatus, solver) := r in
  if negb (solverStatus =? 0)
  then cerr_write (stuck_report solverStatus summary) ;;;
       throw stuck
  else
    let solverStatus :=
      gsl_multiroot_test_delta (fsolver_dx solver) (fsolver_x solver)
                               absoluteTolerance relativeTolerance in
    ret (solverStatus, counter, solver, summary).

(** [do { ... } while ( solverStatus == GSL_CONTINUE
    && counter < maximumIterations )]; [fuel] bounds the passes after
    the first. *)
Fixpoint do_while (fuel : nat) (counter : Z) (solver : fsolver)
    (summary : ostringstream)
  : M (Z * Z * fsolver * ostringstream) :=
  r <- loop_body counter solver summary ;;
  let '(solverStatus, counter, solver, summary) := r in
  if (solverStatus =? GSL_CONTINUE) && (counter <? maximumIterations)
  then match fuel with
       | O => out_of_fuel
       | S fuel' => do_while fuel' counter solver summary
       end
  else ret r.

(** Lines 185 to 251: the parameters, the initial guess, the solver and
    the loop. *)
Definition executeAtomSolver_iterate
  : M (Z * Z * fsolver * ostringstream) :=
  initialGuess <- for_loop 3 0 (fun i initialGuess =>
      g <- Vector_get departureVelocityGuess i ;;
      gsl_vector_set initialGuess i g) (gsl_vector_alloc 3) ;;
  solver <- solver_set initialGuess ;;
  let counter := 0 in
  let summary := [SHeader] in
  do_while (Z.to_nat (maximumIterations - 1)) counter solver summary.

(** Lines 253 to 311: the two reference parameters are assigned, then
    the velocities are computed. *)
Definition executeAtomSolver_finish
    (r : Z * Z * fsolver * ostringstream) : M (Vector * Vector) :=
  let '(solverStatus, counter, solver, summary) := r in
  set_numberOfIterations (counter - 1) ;;;
  let summary := summary ++ status_lines solverStatus in
  set_solverStatusSummary (str summary) ;;;
  departureVelocity <- for_loop 3 0 (fun i departureVelocity =>
      v <- gsl_vector_get (fsolver_x solver) i ;;
      Vector_set departureVelocity i v) (Vector_new 3) ;;
  departureState <-
    makeDepartureState departurePosition departureVelocity ;;
  arrivalState <- propagateDepartureState departureState departureEpoch
      referenceTle earthGravitationalParameter earthMeanRadius
      absoluteTolerance relativeTolerance maximumIterations
      timeOfFlight ;;
  let arrivalVelocity := Vector_new 3 in
  arrivalVelocity <-
    Vector_set arrivalVelocity 0 (x (Velocity arrivalState)) ;;
  arrivalVelocity <-
    Vector_set arrivalVelocity 1 (y (Velocity arrivalState)) ;;
  arrivalVelocity <-
    Vector_set arrivalVelocity 2 (z (Velocity arrivalState)) ;;
  ret (departureVelocity, arrivalVelocity).

Definition executeAtomSolver : M (Vector * Vector) :=
  r <- executeAtomSolver_iterate ;;
  executeAtomSolver_finish r.

(** The configurations at the head of the loop body that a call
    started in [st0] goes through: the counter, the solver, the buffer
    and the state. *)
Inductive Iterating (st0 : State)
  : Z -> fsolver -> ostringstream -> State -> Prop :=
  | Iterating_first : forall initialGuess st solver st1,
      for_loop 3 0 (fun i initialGuess =>
          g <- Vector_get departureVelocityGuess i ;;
          gsl_vector_set initialGuess i g) (gsl_vector_alloc 3) st0
        = (Normal initialGuess, st) ->
      solver_set initialGuess st = (Normal solver, st1) ->
      Iterating st0 0 solver [SHeader] st1
  | Iterating_next : forall counter solver summary st
                            counter' solver' summary' st',
      Iterating st0 counter solver summary st ->
      loop_body counter solver summary st
        = (Normal (GSL_CONTINUE, counter', solver', summary'), st') ->
      counter' < maximumIterations ->
      Iterating st0 counter' solver' summary' st'.

(** Row [b] follows row [a] in the history of the solver: its number is
    the next one, and its solver is what a single step makes of the
    solver of [a], with status 0, from whatever state. *)
Definition next_row (a b : Z * fsolver) : Prop :=
  fst b = fst a + 1 /\
  forall st, fst (solver_iterate (snd a) st) = Normal (0, snd b).

End ExecuteAtomSolver.

(** The overload without the two reference parameters: two locals stand
    in for them, and the defaults of the declaration fill the rest. *)
Definition executeAtomSolver' (departurePosition : Vector)
    (departureEpoch : DateTime) (arrivalPosition : Vector)
    (timeOfFlight : Real) (departureVelocityGuess : Vector)
  : M (Vector * Vector) :=
  fun st =>
    let dummyString := EmptyString in
    let dummyInteger := 0 in
    let '(r, st') :=
      executeAtomSolver departurePosition departureEpoch arrivalPosition
        timeOfFlight departureVelocityGuess
        Tle_default kMU kXKMPER
        (Real_of_Q (1 # 10000000000)) (Real_of_Q (1 # 100000)) 100
        (mkState dummyString dummyInteger (cerr st) (calls st)) in
    (r, mkState (solverStatusSummary st) (numberOfIterations st)
                (cerr st') (calls st')).

(** ** What a call leaves in the streams *)

(** The single steps of the Root-Finder among the outside calls made. *)
Definition is_step (e : Event) : bool :=
  match e with
  | EvSolverIterate => true
  | _ => false
  end.

Definition steps_made (made : list Event) : nat :=
  length (List.filter is_step made).

(** The calls of the two adapters. *)
Definition adapter_event (e : Event) : bool :=
  match e with
  | EvConvert _ | EvFindPosition _ => true
  | _ => false
  end.

Definition not_a_step (e : Event) : bool := negb (is_step e).

(** [confined allowed m]: however [m] ends, it has written nothing to
    [std::cerr] and has made only outside calls that [allowed] admits. *)
Definition confined (allowed : Event -> bool) {A} (m : M A) : Prop :=
  forall st r st',
    m st = (r, st') ->
    cerr st' = cerr st /\
    exists made,
      calls st' = calls st ++ made /\ forallb allowed made = true.

(** The outside calls of one conversion and propagation: the conversion,
    then [FindPosition] when the conversion and the constructor of [SGP4]
    have returned. *)
Definition adapter_calls (parameters : AtomParameters) (state : Vector)
  : list Event :=
  EvConvert state ::
  match convertCartesianStateToTwoLineElements state
          (departureEpoch parameters) (referenceTle parameters)
          (earthGravitationalParameter parameters)
          (earthMeanRadius parameters)
          (absoluteTolerance parameters) (relativeTolerance parameters)
          (maximumIterations parameters) with
  | inl _ => []
  | inr departureTle =>
      match SGP4_new departureTle with
      | inl _ => []
      | inr _ => [EvFindPosition (timeOfFlight parameters)]
      end
  end.

(** The item a row of the table was inserted as. *)
Definition row_item (row : Z * fsolver) : SummaryItem :=
  SRow (fst row) (snd row).

(** Every element of a list is related to the one after it. *)
Fixpoint linked {A} (R : A -> A -> Prop) (l : list A) : Prop :=
  match l with
  | a :: (b :: _) as rest => R a b /\ linked R rest
  | _ => True
  end.

End Atom.

(** ** A test double

    Rational numbers for [Real]; a body that moves in a straight line for
    the propagator, its "elements" being the Cartesian state itself; and a
    relaxation [x := x - gain * f] for the root-finder, which can be told
    to break down at a chosen iteration.  The step test is the one GSL
    documents for [gsl_multiroot_test_delta]. *)
Module Toy.

Definition toy_real : RealOps := {|
  Real := Q;
  Rzero := 0%Q;
  uninitialized := (-1)%Q;
  Rsub := fun a b => Qred (a - b);
  Rdiv := fun a b => Qred (a / b);
  Real_of_Q := fun q => q
|}.

#[local] Existing Instance toy_real.

Record toy_fsolver : Type := mkToy {
  toy_x : list Q;
  toy_dx : list Q;
  toy_f : list Q;
  toy_iteration : nat
}.

Definition GSL_EBADFUNC : Z := 9.
Definition GSL_EBADTOL : Z := 13.
Definition GSL_ENOPROG : Z := 27.

Definition toy_set (initialGuess : list Q) : Callback toy_fsolver :=
  Call initialGuess (replicate 3 0%Q)
       (fun r => Done (mkToy initialGuess (replicate 3 0%Q) (snd r) 0)).

Definition toy_iterate (gain : Q) (fail_at : option nat)
    (s : toy_fsolver) : Callback (Z * toy_fsolver) :=
  if decide (fail_at = Some (toy_iteration s))
  then Done (GSL_ENOPROG, s)
  else
    let dx := map (fun fi => Qred (- (gain * fi))) (toy_f s) in
    let x' := zip_with (fun a b => Qred (a + b)) (toy_x s) dx in
    Call x' (toy_f s)
         (fun r => if fst r =? 0
                   then Done (0, mkToy x' dx (snd r) (S (toy_iteration s)))
                   else Done (GSL_EBADFUNC, s)).

Definition Qltb (a b : Q) : bool := negb (Qle_bool b a).

Definition toy_test_delta (dx x : list Q) (epsabs epsrel : Q) : Z :=
  if Qltb epsrel 0 then GSL_EBADTOL
  else if forallb (fun p =>
                     Qltb (Qabs (fst p)) (epsabs + epsrel * Qabs (snd p))
                     || Qeq_bool (fst p) 0)
                  (zip dx x)
       then GSL_SUCCESS
       else GSL_CONTINUE.

Definition toy_strerror (status : Z) : string :=
  if status =? GSL_SUCCESS then "success"
  else if status =? GSL_CONTINUE
       then "the iteration has not converged yet"
       else "error".

(** The conversion keeps the state as it is; a body at rest has no
    orbit. *)
Definition toy_convert (state : list Q) (epoch : Z) (reference : list Q)
    (mu radius absTol relTol : Q) (maxIter : Z)
  : exception + list Q :=
  if forallb (fun v => Qeq_bool v 0) (drop 3 state)
  then inl (library_exception "no orbit through a state at rest")
  else inr state.

Definition toy_FindPosition (state : list Q) (tof : Q)
  : exception + Eci :=
  match state with
  | [rx; ry; rz; vx; vy; vz] =>
      inr (mkEci (mkVector3 (Qred (rx + tof * vx)) (Qred (ry + tof * vy))
                            (Qred (rz + tof * vz)))
                 (mkVector3 vx vy vz))
  | _ => inl (library_exception "not a state")
  end.

Definition toy_outside (gain : Q) (fail_at : option nat)
  : Outside := {|
  DateTime := Z;
  Tle := list Q;
  SGP4 := list Q;
  Tle_default := [];
  kMU := 1%Q;
  kXKMPER := 1%Q;
  fsolver := toy_fsolver;
  fsolver_x := toy_x;
  fsolver_dx := toy_dx;
  fsolver_f := toy_f;
  gsl_multiroot_fsolver_set := toy_set;
  gsl_multiroot_fsolver_iterate := toy_iterate gain fail_at;
  gsl_multiroot_test_delta := toy_test_delta;
  gsl_strerror := toy_strerror;
  convertCartesianStateToTwoLineElements := toy_convert;
  SGP4_new := fun tle => inr tle;
  FindPosition := toy_FindPosition;
  printAtomSolverStateTableHeader := "# x dx f"%string;
  printAtomSolverState := fun counter solver => "row"%string
|}.

Definition start : State := mkState "unset" (-7) [] [].

(** A solve over two time units from [1, 0, 0] to [5, 2, 0]. *)
Definition solve (gain : Q) (fail_at : option nat) (tof : Q)
    (guess : list Q) (maximumIterations : Z) (st : State)
  : result (Vector * Vector) * State :=
  executeAtomSolver (H0 := toy_outside gain fail_at)
    [1; 0; 0]%Q 0 [5; 2; 0]%Q tof guess [] 1%Q 1%Q
    (1 # 10000000000)%Q (1 # 100000)%Q maximumIterations st.

(** The solver of that solve, from the guess [1, 1, 1] with a gain of
    one half: as set, after the first step and after the second. *)
Definition seeded : toy_fsolver :=
  mkToy [1; 1; 1]%Q [0; 0; 0]%Q [-2; 0; 2]%Q 0.
Definition stepped : toy_fsolver :=
  mkToy [2; 1; 0]%Q [1; 0; -1]%Q [0; 0; 0]%Q 1.
Definition settled : toy_fsolver :=
  mkToy [2; 1; 0]%Q [0; 0; 0]%Q [0; 0; 0]%Q 2.

(** The states it goes through from [start]. *)
Definition after_set : State :=
  mkState "unset" (-7) []
    [EvSolverSet [1; 1; 1]%Q; EvConvert [1; 0; 0; 1; 1; 1]%Q;
     EvFindPosition 2%Q].
Definition after_one_step : State :=
  mkState "unset" (-7) []
    (calls after_set ++
     [EvSolverIterate; EvConvert [1; 0; 0; 2; 1; 0]%Q;
      EvFindPosition 2%Q]).
Definition after_two_steps : State :=
  mkState "unset" (-7) []
    (calls after_one_step ++
     [EvSolverIterate; EvConvert [1; 0; 0; 2; 1; 0]%Q;
      EvFindPosition 2%Q]).
Definition after_breakdown : State :=
  mkState "unset" (-7) [] (calls after_one_step ++ [EvSolverIterate]).

(** The same solve up to the end of its loop. *)
Definition iterations (gain : Q) (fail_at : option nat) (tof : Q)
    (guess : list Q) (maximumIterations : Z) (st : State)
  : result (Z * Z * toy_fsolver * ostringstream) * State :=
  executeAtomSolver_iterate (H0 := toy_outside gain fail_at)
    [1; 0; 0]%Q 0 [5; 2; 0]%Q tof guess [] 1%Q 1%Q
    (1 # 10000000000)%Q (1 # 100000)%Q maximumIterations st.

(** The parameters of that solve, as the residual function gets them. *)
Definition bundle (gain : Q) (fail_at : option nat) (tof : Q)
    (maximumIterations : Z) : AtomParameters :=
  parameters (H0 := toy_outside gain fail_at)
    [1; 0; 0]%Q 0 [5; 2; 0]%Q tof [] 1%Q 1%Q
    (1 # 10000000000)%Q (1 # 100000)%Q maximumIterations.

(** A Root-Finder that evaluates the residuals where it stands and then
    moves on without looking at where it lands. *)
Definition leap_iterate (gain : Q) (s : toy_fsolver)
  : Callback (Z * toy_fsolver) :=
  Call (toy_x s) (toy_f s)
       (fun r =>
          if fst r =? 0
          then
            let dx := map (fun fi => Qred (- (gain * fi))) (snd r) in
            let x' := zip_with (fun a b => Qred (a + b)) (toy_x s) dx in
            Done (0, mkToy x' dx (snd r) (S (toy_iteration s)))
          else Done (GSL_EBADFUNC, s)).

Definition leaping_outside (gain : Q) : Outside := {|
  DateTime := Z;
  Tle := list Q;
  SGP4 := list Q;
  Tle_default := [];
  kMU := 1%Q;
  kXKMPER := 1%Q;
  fsolver := toy_fsolver;
  fsolver_x := toy_x;
  fsolver_dx := toy_dx;
  fsolver_f := toy_f;
  gsl_multiroot_fsolver_set := toy_set;
  gsl_multiroot_fsolver_iterate := leap_iterate gain;
  gsl_multiroot_test_delta := toy_test_delta;
  gsl_strerror := toy_strerror;
  convertCartesianStateToTwoLineElements := toy_convert;
  SGP4_new := fun tle => inr tle;
  FindPosition := toy_FindPosition;
  printAtomSolverStateTableHeader := "# x dx f"%string;
  printAtomSolverState := fun counter solver => "row"%string
|}.

(** The solve from [1, 0, 0] to [5, 2, 0] with the leaping Root-Finder. *)
Definition leaping_solve (gain : Q) (tof : Q) (guess : list Q)
    (maximumIterations : Z) (st : State)
  : result (Vector * Vector) * State :=
  executeAtomSolver (H0 := leaping_outside gain)
    [1; 0; 0]%Q 0 [5; 2; 0]%Q tof guess [] 1%Q 1%Q
    (1 # 10000000000)%Q (1 # 100000)%Q maximumIterations st.

Definition leaping_iterations (gain : Q) (tof : Q) (guess : list Q)
    (maximumIterations : Z) (st : State)
  : result (Z * Z * toy_fsolver * ostringstream) * State :=
  executeAtomSolver_iterate (H0 := leaping_outside gain)
    [1; 0; 0]%Q 0 [5; 2; 0]%Q tof guess [] 1%Q 1%Q
    (1 # 10000000000)%Q (1 # 100000)%Q maximumIterations st.

(** The solve from the guess [-2, -1, 0] with a gain of one quarter: the
    solver as set, the state then, and the state after an evaluation at
    rest has failed in the first step. *)
Definition resting_seed : toy_fsolver :=
  mkToy [-2; -1; 0]%Q [0; 0; 0]%Q [-8; -4; 0]%Q 0.
Definition resting_set : State :=
  mkState "unset" (-7) []
    [EvSolverSet [-2; -1; 0]%Q; EvConvert [1; 0; 0; -2; -1; 0]%Q;
     EvFindPosition 2%Q].
Definition resting_failed : State :=
  mkState "unset" (-7) []
    (calls resting_set ++
     [EvSolverIterate; EvConvert [1; 0; 0; 0; 0; 0]%Q]).

End Toy.

(** * Properties *)


Section Properties.

Context `{Outside}.

(** ** Effects compose *)

Lemma apply_seq_effect (e1 e2 : Effect) (st : State) :
  apply e2 (apply e1 st) = apply (seq_effect e1 e2) st.
Proof.
  destruct e1 as [[s1|] [n1|] c1 l1], e2 as [[s2|] [n2|] c2 l2];
    unfold apply, seq_effect; simpl; f_equal;
    symmetry; apply List.app_assoc.
Qed.

Lemma apply_nothing (st : State) : apply (mkEffect None None [] []) st = st.
Proof.
  destruct st; unfold apply; simpl. now rewrite !List.app_nil_r.
Qed.

Lemma silent_seq (e1 e2 : Effect) :
  silent e1 -> silent e2 -> silent (seq_effect e1 e2).
Proof.
  intros [Hs1 Hn1] [Hs2 Hn2]. unfold silent, seq_effect; simpl.
  now rewrite Hs1, Hn1, Hs2, Hn2.
Qed.

Lemma silent_apply (e : Effect) (st : State) :
  silent e ->
  solverStatusSummary (apply e st) = solverStatusSummary st /\
  numberOfIterations (apply e st) = numberOfIterations st.
Proof. intros [Hs Hn]. unfold apply; simpl. now rewrite Hs, Hn. Qed.

(** ** Every operation of the model is regular *)

Lemma regular_weaken {A} (q t q' t' : bool) (m : M A) :
  regular q t m ->
  (q' = true -> q = true) -> (t' = true -> t = true) ->
  regular q' t' m.
Proof.
  intros (r & e & Hq & Ht & Hm) HQ HT. exists r, e. auto.
Qed.

Lemma regular_ret {A} (q t : bool) (a : A) : regular q t (ret a).
Proof.
  exists (Normal a), (mkEffect None None [] []).
  repeat split; try discriminate.
  intros st. unfold ret. now rewrite apply_nothing.
Qed.

Lemma regular_throw {A} (q t : bool) (e : exception) :
  regular q t (throw (A := A) e).
Proof.
  exists (Throw e), (mkEffect None None [] []).
  repeat split; try discriminate.
  intros st. unfold throw. now rewrite apply_nothing.
Qed.

Lemma regular_undefined {A} (q t : bool) :
  regular q t (undefined (A := A)).
Proof.
  exists Undefined, (mkEffect None None [] []).
  repeat split; try discriminate.
  intros st. unfold undefined. now rewrite apply_nothing.
Qed.

Lemma regular_out_of_fuel {A} (q : bool) :
  regular q false (out_of_fuel (A := A)).
Proof.
  exists OutOfFuel, (mkEffect None None [] []).
  repeat split; try discriminate.
  intros st. unfold out_of_fuel. now rewrite apply_nothing.
Qed.

Lemma regular_log (q t : bool) (ev : Event) : regular q t (log ev).
Proof.
  exists (Normal tt), (mkEffect None None [] [ev]).
  repeat split; try discriminate.
  intros st. unfold log, apply; simpl. now rewrite List.app_nil_r.
Qed.

Lemma regular_cerr_write (q t : bool) (o : list Out) :
  regular q t (cerr_write o).
Proof.
  exists (Normal tt), (mkEffect None None o []).
  repeat split; try discriminate.
  intros st. unfold cerr_write, apply; simpl. now rewrite List.app_nil_r.
Qed.

Lemma regular_set_numberOfIterations (t : bool) (n : Z) :
  regular false t (set_numberOfIterations n).
Proof.
  exists (Normal tt), (mkEffect None (Some n) [] []).
  repeat split; try discriminate.
  intros st. unfold set_numberOfIterations, apply; simpl.
  now rewrite !List.app_nil_r.
Qed.

Lemma regular_set_solverStatusSummary (t : bool) (s : string) :
  regular false t (set_solverStatusSummary s).
Proof.
  exists (Normal tt), (mkEffect (Some s) None [] []).
  repeat split; try discriminate.
  intros st. unfold set_solverStatusSummary, apply; simpl.
  now rewrite !List.app_nil_r.
Qed.

Lemma regular_bind {A B} (q t : bool) (m : M A) (k : A -> M B) :
  regular q t m -> (forall a, regular q t (k a)) ->
  regular q t (bind m k).
Proof.
  intros (r & e & Hq & Ht & Hm) Hk.
  destruct r as [a | ex | | ].
  - destruct (Hk a) as (r' & e' & Hq' & Ht' & Hk').
    exists r', (seq_effect e e'). split; [| split]; auto.
    + intros Q. apply silent_seq; auto.
    + intros st. unfold bind. rewrite Hm, Hk'. now rewrite apply_seq_effect.
  - exists (Throw ex), e. split; [| split]; auto; try discriminate.
    intros st. unfold bind. now rewrite Hm.
  - exists Undefined, e. split; [| split]; auto; try discriminate.
    intros st. unfold bind. now rewrite Hm.
  - exists OutOfFuel, e. split; [| split]; auto.
    + intros T. now destruct (Ht T).
    + intros st. unfold bind. now rewrite Hm.
Qed.

Lemma regular_lift_call {A} (q t : bool) (r : exception + A) :
  regular q t (lift_call r).
Proof.
  destruct r; simpl; [apply regular_throw | apply regular_ret].
Qed.

Lemma regular_Vector_get (q t : bool) (v : Vector) (i : Z) :
  regular q t (Vector_get v i).
Proof.
  unfold Vector_get. destruct (i <? 0); [apply regular_undefined |].
  destruct (v !! Z.to_nat i); [apply regular_ret | apply regular_undefined].
Qed.

Lemma regular_Vector_set (q t : bool) (v : Vector) (i : Z) (r : Real) :
  regular q t (Vector_set v i r).
Proof.
  unfold Vector_set.
  destruct ((0 <=? i) && (i <? Z.of_nat (length v)));
    [apply regular_ret | apply regular_undefined].
Qed.

Lemma regular_for_loop {A} (q t : bool) (body : Z -> A -> M A) :
  (forall i a, regular q t (body i a)) ->
  forall n i a, regular q t (for_loop n i body a).
Proof.
  intros Hb n. induction n as [| n IH]; intros i a; simpl.
  - apply regular_ret.
  - apply regular_bind; auto.
Qed.

Lemma regular_fueled {A} (q : bool) (m : M A) (st st' : State) :
  regular q true m -> m st <> (OutOfFuel, st').
Proof.
  intros (r & e & _ & Ht & Hrun). rewrite Hrun.
  intros E. inversion E; subst. now apply Ht.
Qed.

Lemma bind_Normal {A B} (m : M A) (k : A -> M B) st a st1 :
  m st = (Normal a, st1) -> bind m k st = k a st1.
Proof. intros E. unfold bind. now rewrite E. Qed.

Lemma bind_inv {A B} (m : M A) (k : A -> M B) st r st' :
  bind m k st = (r, st') ->
  match m st with
  | (Normal a, st1) => k a st1 = (r, st')
  | (Throw e, st1) => r = Throw e /\ st' = st1
  | (Undefined, st1) => r = Undefined /\ st' = st1
  | (OutOfFuel, st1) => r = OutOfFuel /\ st' = st1
  end.
Proof.
  unfold bind. destruct (m st) as [[a | e | | ] st1]; auto;
    intros E; inversion E; auto.
Qed.

(** One step of a proof that a computation is regular. *)
Ltac regular_step :=
  first
    [ apply regular_ret | apply regular_throw | apply regular_undefined
    | apply regular_log | apply regular_cerr_write
    | apply regular_lift_call
    | apply regular_Vector_get | apply regular_Vector_set
    | apply regular_for_loop; intros
    | apply regular_bind; [| intros] ].

Lemma regular_makeDepartureState (q t : bool) (position velocity : Vector) :
  regular q t (makeDepartureState position velocity).
Proof. unfold makeDepartureState. repeat regular_step. Qed.

Lemma regular_propagateDepartureState (q t : bool) state epoch reference
    mu radius absTol relTol maxIter tof :
  regular q t (propagateDepartureState state epoch reference mu radius
                 absTol relTol maxIter tof).
Proof. unfold propagateDepartureState. repeat regular_step. Qed.

Lemma regular_computeAtomResiduals (q t : bool) independentVariables
    parameters residuals :
  regular q t (computeAtomResiduals independentVariables parameters
                 residuals).
Proof.
  unfold computeAtomResiduals, gsl_vector_get, gsl_vector_set.
  apply regular_bind; [repeat regular_step | intros].
  apply regular_bind; [apply regular_makeDepartureState | intros].
  apply regular_bind; [apply regular_propagateDepartureState | intros].
  repeat regular_step.
Qed.

Lemma regular_run_gsl {A} (q t : bool) parameters (c : Callback A) :
  regular q t (run_gsl parameters c).
Proof.
  induction c as [a | point buffer k IH]; simpl.
  - apply regular_ret.
  - apply regular_bind; [apply regular_computeAtomResiduals | auto].
Qed.

(** ** The residual function *)

Lemma makeDepartureState_value position velocity st departureState st' :
  makeDepartureState position velocity st = (Normal departureState, st') ->
  departureState = take 3 position ++ take 3 velocity /\ st' = st /\
  length (take 3 position) = 3%nat /\ length (take 3 velocity) = 3%nat.
Proof.
  destruct position as [| p0 [| p1 [| p2 position]]];
    try (cbv; discriminate).
  destruct velocity as [| v0 [| v1 [| v2 velocity]]];
    try (cbv; discriminate).
  cbv. intros E. inversion E. auto.
Qed.

Lemma read_three (v : gsl_vector) st departureVelocity st' :
  for_loop 3 0 (fun i departureVelocity =>
      r <- gsl_vector_get v i ;;
      Vector_set departureVelocity i r) (Vector_new 3) st
  = (Normal departureVelocity, st') ->
  departureVelocity = take 3 v /\ st' = st /\ length (take 3 v) = 3%nat.
Proof.
  destruct v as [| v0 [| v1 [| v2 v]]]; try (cbv; discriminate).
  cbv. intros E. inversion E. auto.
Qed.

Lemma read_three_3 v0 v1 v2 st :
  for_loop 3 0 (fun i departureVelocity =>
      r <- gsl_vector_get [v0; v1; v2] i ;;
      Vector_set departureVelocity i r) (Vector_new 3) st
  = (Normal [v0; v1; v2], st).
Proof. reflexivity. Qed.

Lemma makeDepartureState_3 p0 p1 p2 v0 v1 v2 st :
  makeDepartureState [p0; p1; p2] [v0; v1; v2] st
  = (Normal [p0; p1; p2; v0; v1; v2], st).
Proof. reflexivity. Qed.

(** Conversion and propagation end as the two adapters do. *)
Lemma propagateDepartureState_value parameters state st :
  fst (propagateDepartureState state
         (departureEpoch parameters) (referenceTle parameters)
         (earthGravitationalParameter parameters)
         (earthMeanRadius parameters)
         (absoluteTolerance parameters) (relativeTolerance parameters)
         (maximumIterations parameters) (timeOfFlight parameters) st)
  = match adapters parameters state with
    | inl e => Throw e
    | inr arrival => Normal arrival
    end.
Proof.
  unfold propagateDepartureState, adapters, bind, log, lift_call,
    throw, ret.
  destruct (convertCartesianStateToTwoLineElements _ _ _ _ _ _ _ _)
    as [e | tle]; simpl; [reflexivity |].
  destruct (SGP4_new tle) as [e | sgp4]; simpl; [reflexivity |].
  destruct (FindPosition sgp4 _) as [e | arrival]; reflexivity.
Qed.

Lemma fst_bind_Throw {A B} (m : M A) (k : A -> M B) st e :
  fst (m st) = Throw e -> fst (bind m k st) = Throw e.
Proof.
  unfold bind. destruct (m st) as [[a | e' | | ] st1]; cbn;
    intros E; congruence.
Qed.

(** What the evaluator does on vectors of three components. *)
Lemma computeAtomResiduals_value parameters independentVariables
      residuals st :
  length (departurePosition parameters) = 3%nat ->
  length (targetPosition parameters) = 3%nat ->
  length independentVariables = 3%nat ->
  length residuals = 3%nat ->
  fst (computeAtomResiduals independentVariables parameters residuals st)
  = match residual_by_design parameters independentVariables with
    | inl e => Throw e
    | inr r => Normal (GSL_SUCCESS, r)
    end.
Proof.
  intros Hp Ht Hv Hr.
  unfold computeAtomResiduals, residual_by_design.
  pose proof (propagateDepartureState_value parameters
                (departurePosition parameters ++ independentVariables))
    as Hprop.
  destruct (departurePosition parameters)
    as [| p0 [| p1 [| p2 [| ? ?]]]]; try discriminate.
  destruct (targetPosition parameters)
    as [| t0 [| t1 [| t2 [| ? ?]]]]; try discriminate.
  destruct independentVariables as [| v0 [| v1 [| v2 [| ? ?]]]];
    try discriminate.
  destruct residuals as [| r0 [| r1 [| r2 [| ? ?]]]]; try discriminate.
  change (take 3 [v0; v1; v2]) with [v0; v1; v2] in *.
  rewrite (bind_Normal _ _ _ _ _ (read_three_3 v0 v1 v2 st)).
  rewrite (bind_Normal _ _ _ _ _
             (makeDepartureState_3 p0 p1 p2 v0 v1 v2 st)).
  specialize (Hprop st). simpl app in *. unfold bind at 1.
  destruct (propagateDepartureState _ _ _ _ _ _ _ _ _ st)
    as [[arrival | e | | ] st'];
    simpl in Hprop;
    destruct (adapters parameters [p0; p1; p2; v0; v1; v2])
      as [e' | arrival']; try discriminate;
    inversion Hprop; subst; reflexivity.
Qed.

(** The only code the evaluator returns is [GSL_SUCCESS], and then both
    adapter calls have returned. *)
Lemma computeAtomResiduals_returns parameters independentVariables
      residuals st code r st' :
  computeAtomResiduals independentVariables parameters residuals st
  = (Normal (code, r), st') ->
  code = GSL_SUCCESS /\
  exists arrival,
    adapters parameters (take 3 (departurePosition parameters)
                         ++ take 3 independentVariables) = inr arrival.
Proof.
  unfold computeAtomResiduals. intros E.
  apply bind_inv in E.
  destruct (for_loop 3 0 _ _ st) as [[dv | ? | | ] st1] eqn:E1;
    try (destruct E; discriminate).
  apply read_three in E1 as (-> & -> & Hlen).
  apply bind_inv in E.
  destruct (makeDepartureState _ _ st) as [[ds | ? | | ] st2] eqn:E2;
    try (destruct E; discriminate).
  apply makeDepartureState_value in E2 as (-> & -> & _ & _).
  rewrite (take_ge (take 3 independentVariables)) in E by lia.
  apply bind_inv in E.
  pose proof (propagateDepartureState_value parameters
                (take 3 (departurePosition parameters)
                 ++ take 3 independentVariables) st) as Hprop.
  destruct (propagateDepartureState _ _ _ _ _ _ _ _ _ st)
    as [[arrival | ? | | ] st3]; try (destruct E; discriminate).
  simpl in Hprop.
  destruct (adapters parameters _) as [? | arrival']; [discriminate |].
  split; [| now exists arrival'].
  repeat (apply bind_inv in E;
          match type of E with
          | match ?m ?s with _ => _ end =>
              destruct (m s) as [[? | ? | | ] ?];
              try (destruct E; discriminate)
          end).
  unfold ret in E. now inversion E.
Qed.

(** C3. For every candidate departure velocity, with the departure
    position, the target position, the candidate and the residual buffer
    of three components each, [computeAtomResiduals] ends as the design
    says: the departure position and the candidate velocity are
    concatenated into a state of six components, the state is converted
    and propagated by the time of flight, the target position is
    subtracted component-wise from the propagated position and each
    component is divided by [earthMeanRadius]; the three results are
    returned with [GSL_SUCCESS], and an exception of the adapters is passed
    on. *)
Theorem computeAtomResiduals_as_designed parameters independentVariables
        residuals st :
  length (departurePosition parameters) = 3%nat ->
  length (targetPosition parameters) = 3%nat ->
  length independentVariables = 3%nat ->
  length residuals = 3%nat ->
  fst (computeAtomResiduals independentVariables parameters residuals st)
  = match residual_by_design parameters independentVariables with
    | inl e => Throw e
    | inr r => Normal (GSL_SUCCESS, r)
    end.
Proof. apply computeAtomResiduals_value. Qed.

(** C5 (amended). For every candidate on which the conversion or the
    propagation fails with an exception, [computeAtomResiduals] returns
    neither a code nor residuals: the exception leaves the evaluator and
    the call GSL made of it.  A failure code is never returned: whenever
    the evaluator returns, the code is [GSL_SUCCESS]. *)
Theorem computeAtomResiduals_failure_unwinds parameters
        independentVariables residuals st e :
  length (departurePosition parameters) = 3%nat ->
  length (targetPosition parameters) = 3%nat ->
  length independentVariables = 3%nat ->
  length residuals = 3%nat ->
  adapters parameters (departurePosition parameters
                       ++ independentVariables) = inl e ->
  fst (computeAtomResiduals independentVariables parameters residuals st)
  = Throw e /\
  (forall A (k : Z * gsl_vector -> Callback A),
      fst (run_gsl parameters (Call independentVariables residuals k) st)
      = Throw e) /\
  (forall point buffer st1 code r st',
      computeAtomResiduals point parameters buffer st1
      = (Normal (code, r), st') ->
      code = GSL_SUCCESS).
Proof.
  intros Hp Ht Hv Hr Hfail.
  assert (Hthrow : fst (computeAtomResiduals independentVariables
                          parameters residuals st) = Throw e).
  { rewrite computeAtomResiduals_value by assumption.
    unfold residual_by_design. now rewrite Hfail. }
  split; [assumption |]. split.
  - intros A k. simpl. now apply fst_bind_Throw.
  - intros point buffer st1 code r st' E.
    now apply computeAtomResiduals_returns in E.
Qed.

(** ** What the evaluator leaves behind *)

Lemma confined_weaken {A} (a b : Event -> bool) (m : M A) :
  (forall e, a e = true -> b e = true) -> confined a m -> confined b m.
Proof.
  intros Hab Hm st r st' E.
  destruct (Hm st r st' E) as (Hc & made & Hcalls & Hall).
  split; [assumption |]. exists made. split; [assumption |].
  apply forallb_forall. intros e He.
  apply Hab. now apply (proj1 (forallb_forall a made) Hall).
Qed.

Lemma confined_pure {A} (a : Event -> bool) (m : M A) :
  (forall st, snd (m st) = st) -> confined a m.
Proof.
  intros Hm st r st' E. specialize (Hm st). rewrite E in Hm. simpl in Hm.
  subst st'. split; [reflexivity |]. exists [].
  now rewrite List.app_nil_r.
Qed.

Lemma confined_bind {A B} (a : Event -> bool) (m : M A) (k : A -> M B) :
  confined a m -> (forall v, confined a (k v)) -> confined a (bind m k).
Proof.
  intros Hm Hk st r st' E. apply bind_inv in E.
  destruct (m st) as [[v | e | | ] st1] eqn:Em.
  - destruct (Hm _ _ _ Em) as (Hc1 & l1 & Hl1 & Ha1).
    destruct (Hk v _ _ _ E) as (Hc2 & l2 & Hl2 & Ha2).
    split; [congruence |]. exists (l1 ++ l2).
    rewrite Hl2, Hl1, <- List.app_assoc. split; [reflexivity |].
    now rewrite forallb_app, Ha1, Ha2.
  - destruct E as [_ ->]. exact (Hm _ _ _ Em).
  - destruct E as [_ ->]. exact (Hm _ _ _ Em).
  - destruct E as [_ ->]. exact (Hm _ _ _ Em).
Qed.

Lemma confined_log (a : Event -> bool) (e : Event) :
  a e = true -> confined a (log e).
Proof.
  intros Ha st r st' E. unfold log in E. inversion E; subst; simpl.
  split; [reflexivity |]. exists [e]. simpl. now rewrite Ha.
Qed.

Lemma confined_lift_call {A} (a : Event -> bool) (r : exception + A) :
  confined a (lift_call r).
Proof. apply confined_pure. now destruct r. Qed.

Lemma confined_Vector_get (a : Event -> bool) (v : Vector) (i : Z) :
  confined a (Vector_get v i).
Proof.
  apply confined_pure. intros st. unfold Vector_get.
  destruct (i <? 0); [reflexivity |]. now destruct (v !! Z.to_nat i).
Qed.

Lemma confined_Vector_set (a : Event -> bool) (v : Vector) (i : Z)
      (r : Real) :
  confined a (Vector_set v i r).
Proof.
  apply confined_pure. intros st. unfold Vector_set.
  now destruct ((0 <=? i) && (i <? Z.of_nat (length v))).
Qed.

Lemma confined_for_loop {A} (a : Event -> bool) (body : Z -> A -> M A) :
  (forall i v, confined a (body i v)) ->
  forall n i v, confined a (for_loop n i body v).
Proof.
  intros Hb n. induction n as [| n IH]; intros i v; simpl.
  - now apply confined_pure.
  - apply confined_bind; auto.
Qed.

(** One step of a proof that a computation is confined. *)
Ltac confined_step :=
  first
    [ apply confined_lift_call
    | apply confined_Vector_get | apply confined_Vector_set
    | apply confined_log; reflexivity
    | apply confined_for_loop; intros
    | apply confined_bind; [| intros]
    | apply confined_pure; reflexivity ].

Lemma confined_makeDepartureState (a : Event -> bool) position velocity :
  confined a (makeDepartureState position velocity).
Proof. unfold makeDepartureState. repeat confined_step. Qed.

Lemma confined_propagateDepartureState state epoch reference mu radius
      absTol relTol maxIter tof :
  confined adapter_event
    (propagateDepartureState state epoch reference mu radius absTol relTol
       maxIter tof).
Proof. unfold propagateDepartureState. repeat confined_step. Qed.

Lemma confined_computeAtomResiduals independentVariables parameters
      residuals :
  confined adapter_event
    (computeAtomResiduals independentVariables parameters residuals).
Proof.
  unfold computeAtomResiduals, gsl_vector_get, gsl_vector_set.
  apply confined_bind; [repeat confined_step | intros].
  apply confined_bind; [apply confined_makeDepartureState | intros].
  apply confined_bind; [apply confined_propagateDepartureState | intros].
  repeat confined_step.
Qed.

Lemma confined_run_gsl {A} parameters (c : Callback A) :
  confined adapter_event (run_gsl parameters c).
Proof.
  induction c as [v | point buffer k IH]; simpl.
  - now apply confined_pure.
  - apply confined_bind; [apply confined_computeAtomResiduals | auto].
Qed.

(** The state after conversion and propagation. *)
Lemma propagateDepartureState_state parameters state st :
  snd (propagateDepartureState state
         (departureEpoch parameters) (referenceTle parameters)
         (earthGravitationalParameter parameters)
         (earthMeanRadius parameters)
         (absoluteTolerance parameters) (relativeTolerance parameters)
         (maximumIterations parameters) (timeOfFlight parameters) st)
  = mkState (solverStatusSummary st) (numberOfIterations st) (cerr st)
            (calls st ++ adapter_calls parameters state).
Proof.
  unfold propagateDepartureState, adapter_calls, bind, log, lift_call,
    throw, ret.
  destruct (convertCartesianStateToTwoLineElements _ _ _ _ _ _ _ _)
    as [e | tle]; simpl; [reflexivity |].
  destruct (SGP4_new tle) as [e | sgp4]; simpl; [reflexivity |].
  destruct (FindPosition sgp4 _) as [e | arrival]; simpl;
    now rewrite <- List.app_assoc.
Qed.

(** X3. One evaluation of the residual function on vectors of three
    components makes one call of the conversion, on the departure
    position followed by the candidate velocity, and then one call of
    [FindPosition] with the time of flight when the conversion and the
    constructor of [SGP4] have returned, and none otherwise; it writes
    nothing to [std::cerr] and leaves the two referenced variables
    alone. *)
Theorem computeAtomResiduals_calls parameters independentVariables
        residuals st :
  length (departurePosition parameters) = 3%nat ->
  length (targetPosition parameters) = 3%nat ->
  length independentVariables = 3%nat ->
  length residuals = 3%nat ->
  snd (computeAtomResiduals independentVariables parameters residuals st)
  = mkState (solverStatusSummary st) (numberOfIterations st) (cerr st)
      (calls st ++
       adapter_calls parameters
         (departurePosition parameters ++ independentVariables)).
Proof.
  intros Hp Ht Hv Hr.
  unfold computeAtomResiduals.
  pose proof (propagateDepartureState_state parameters
                (departurePosition parameters ++ independentVariables) st)
    as Hprop.
  destruct (departurePosition parameters)
    as [| p0 [| p1 [| p2 [| ? ?]]]]; try discriminate.
  destruct (targetPosition parameters)
    as [| t0 [| t1 [| t2 [| ? ?]]]]; try discriminate.
  destruct independentVariables as [| v0 [| v1 [| v2 [| ? ?]]]];
    try discriminate.
  destruct residuals as [| r0 [| r1 [| r2 [| ? ?]]]]; try discriminate.
  rewrite (bind_Normal _ _ _ _ _ (read_three_3 v0 v1 v2 st)).
  rewrite (bind_Normal _ _ _ _ _
             (makeDepartureState_3 p0 p1 p2 v0 v1 v2 st)).
  simpl app in *. unfold bind at 1.
  destruct (propagateDepartureState _ _ _ _ _ _ _ _ _ st)
    as [[arrival | e | | ] st'];
    simpl in Hprop; subst st'; reflexivity.
Qed.

(** ** The loop of executeAtomSolver *)

Section Solve.

Variables (departurePosition : Vector) (departureEpoch : DateTime)
          (arrivalPosition : Vector) (timeOfFlight : Real)
          (departureVelocityGuess : Vector)
          (referenceTle : Tle)
          (earthGravitationalParameter earthMeanRadius : Real)
          (absoluteTolerance relativeTolerance : Real)
          (maximumIterations : Z).

Local Abbreviation set_solver :=
  (solver_set departurePosition departureEpoch arrivalPosition
     timeOfFlight referenceTle earthGravitationalParameter
     earthMeanRadius absoluteTolerance relativeTolerance
     maximumIterations).
Local Abbreviation iterate_solver :=
  (solver_iterate departurePosition departureEpoch arrivalPosition
     timeOfFlight referenceTle earthGravitationalParameter
     earthMeanRadius absoluteTolerance relativeTolerance
     maximumIterations).
Local Abbreviation body :=
  (loop_body departurePosition departureEpoch arrivalPosition
     timeOfFlight referenceTle earthGravitationalParameter
     earthMeanRadius absoluteTolerance relativeTolerance
     maximumIterations).
Local Abbreviation loop :=
  (do_while departurePosition departureEpoch arrivalPosition
     timeOfFlight referenceTle earthGravitationalParameter
     earthMeanRadius absoluteTolerance relativeTolerance
     maximumIterations).
Local Abbreviation iterate :=
  (executeAtomSolver_iterate departurePosition departureEpoch
     arrivalPosition timeOfFlight departureVelocityGuess referenceTle
     earthGravitationalParameter earthMeanRadius absoluteTolerance
     relativeTolerance maximumIterations).
Local Abbreviation finish :=
  (executeAtomSolver_finish departurePosition departureEpoch
     timeOfFlight referenceTle earthGravitationalParameter
     earthMeanRadius absoluteTolerance relativeTolerance
     maximumIterations).
Local Abbreviation execute :=
  (executeAtomSolver departurePosition departureEpoch
     arrivalPosition timeOfFlight departureVelocityGuess referenceTle
     earthGravitationalParameter earthMeanRadius absoluteTolerance
     relativeTolerance maximumIterations).
Local Abbreviation reaches :=
  (Iterating departurePosition departureEpoch
     arrivalPosition timeOfFlight departureVelocityGuess referenceTle
     earthGravitationalParameter earthMeanRadius absoluteTolerance
     relativeTolerance maximumIterations).
Local Abbreviation step_test solver :=
  (gsl_multiroot_test_delta (fsolver_dx solver) (fsolver_x solver)
     absoluteTolerance relativeTolerance).
Local Abbreviation read_guess :=
  (for_loop 3 0 (fun i initialGuess =>
       g <- Vector_get departureVelocityGuess i ;;
       gsl_vector_set initialGuess i g) (gsl_vector_alloc 3)).

Lemma regular_solver_set (q t : bool) initialGuess :
  regular q t (set_solver initialGuess).
Proof.
  unfold solver_set.
  apply regular_bind; [apply regular_log | intros; apply regular_run_gsl].
Qed.

Lemma regular_solver_iterate (q t : bool) solver :
  regular q t (iterate_solver solver).
Proof.
  unfold solver_iterate.
  apply regular_bind; [apply regular_log | intros; apply regular_run_gsl].
Qed.

Lemma regular_loop_body (q t : bool) counter solver summary :
  regular q t (body counter solver summary).
Proof.
  unfold loop_body.
  apply regular_bind; [apply regular_solver_iterate |].
  intros [solverStatus solver'].
  destruct (negb (solverStatus =? 0)); repeat regular_step.
Qed.

Lemma regular_do_while (q : bool) fuel :
  forall counter solver summary,
    regular q false (loop fuel counter solver summary).
Proof.
  induction fuel as [| fuel IH]; intros counter solver summary; simpl;
    (apply regular_bind; [apply regular_loop_body |]);
    intros [[[solverStatus counter'] solver'] summary'];
    (destruct ((solverStatus =? GSL_CONTINUE)
               && (counter' <? maximumIterations));
     [| apply regular_ret]).
  - apply regular_out_of_fuel.
  - apply IH.
Qed.

Lemma regular_iterate (q : bool) : regular q false iterate.
Proof.
  unfold executeAtomSolver_iterate, gsl_vector_set.
  apply regular_bind; [repeat regular_step | intros].
  apply regular_bind; [apply regular_solver_set | intros].
  apply regular_do_while.
Qed.

(** *** One pass *)

Lemma loop_body_normal counter solver summary st
      solverStatus counter' solver' summary' st' :
  body counter solver summary st
    = (Normal (solverStatus, counter', solver', summary'), st') ->
  iterate_solver solver st = (Normal (0, solver'), st') /\
  counter' = counter + 1 /\
  summary' = summary ++ [SRow counter solver] /\
  solverStatus = step_test solver'.
Proof.
  unfold loop_body, bind.
  destruct (iterate_solver solver st) as [[[code s1] | e | | ] st1];
    try discriminate.
  destruct (code =? 0) eqn:Hcode; simpl.
  - apply Z.eqb_eq in Hcode. subst code. unfold ret.
    intros E. inversion E; subst. auto.
  - unfold cerr_write, throw. discriminate.
Qed.

Lemma loop_body_stuck counter solver summary st solverStatus solver' st1 :
  iterate_solver solver st = (Normal (solverStatus, solver'), st1) ->
  solverStatus <> 0 ->
  body counter solver summary st
    = (Throw stuck,
       mkState (solverStatusSummary st1) (numberOfIterations st1)
               (cerr st1 ++
                stuck_report solverStatus
                             (summary ++ [SRow counter solver]))
               (calls st1)).
Proof.
  intros Hit Hne. unfold loop_body, bind. rewrite Hit.
  apply Z.eqb_neq in Hne. rewrite Hne. reflexivity.
Qed.

(** *** The configurations of a call *)

Lemma iterating_counter st0 counter solver summary st :
  reaches st0 counter solver summary st ->
  0 <= counter /\ (counter = 0 \/ counter < maximumIterations).
Proof.
  induction 1 as [| c s sum st c' s' sum' st' _ IH Hbody Hlt]; [lia |].
  apply loop_body_normal in Hbody as (_ & -> & _). lia.
Qed.

(** From a configuration of the call, the rest of the loop is what
    remains of it: the bound of the model is the budget left. *)
Lemma iterate_from st0 counter solver summary st :
  reaches st0 counter solver summary st ->
  iterate st0
  = loop (Z.to_nat (maximumIterations - 1 - counter))
         counter solver summary st.
Proof.
  induction 1 as [g st s st1 Hg Hs
                 | c s sum st c' s' sum' st' _ IH Hbody Hlt].
  - unfold executeAtomSolver_iterate.
    rewrite (bind_Normal _ _ _ _ _ Hg), (bind_Normal _ _ _ _ _ Hs).
    now rewrite Z.sub_0_r.
  - rewrite IH.
    pose proof Hbody as Hb.
    apply loop_body_normal in Hb as (_ & Hc & _).
    replace (Z.to_nat (maximumIterations - 1 - c))
      with (S (Z.to_nat (maximumIterations - 1 - c'))) by lia.
    simpl. rewrite (bind_Normal _ _ _ _ _ Hbody).
    apply Z.ltb_lt in Hlt. now rewrite Hlt.
Qed.

(** The condition of the do-while loop, when it does not hold. *)
Lemma loop_left (status c' : Z) (s' : fsolver) (sum' : ostringstream) :
  (status =? GSL_CONTINUE) && (c' <? maximumIterations) = false ->
  forall counter' solver' summary',
    Normal (status, c', s', sum')
    <> Normal (GSL_CONTINUE, counter', solver', summary') \/
    maximumIterations <= counter'.
Proof.
  intros Hcont c2 s2 sum2.
  apply andb_false_iff in Hcont as [Hs | Hlt].
  - left. intros E. inversion E; subst. now rewrite Z.eqb_refl in Hs.
  - apply Z.ltb_ge in Hlt.
    destruct (Z.eq_dec c2 c') as [-> | Hne]; [now right |].
    left. intros E. inversion E. congruence.
Qed.

(** How the loop ends: at some configuration of the call a pass ends
    it, by what it yields after the test or by not returning; the
    bound of the model is never what ends it. *)
Lemma loop_ends st0 fuel :
  forall counter solver summary st r st',
    reaches st0 counter solver summary st ->
    fuel = Z.to_nat (maximumIterations - 1 - counter) ->
    loop fuel counter solver summary st = (r, st') ->
    exists c s sum st1,
      reaches st0 c s sum st1 /\
      body c s sum st1 = (r, st') /\
      forall counter' solver' summary',
        r <> Normal (GSL_CONTINUE, counter', solver', summary') \/
        maximumIterations <= counter'.
Proof.
  induction fuel as [| fuel IH];
    intros c s sum st r st' Hreach Hfuel Hloop; simpl in Hloop;
    apply bind_inv in Hloop;
    destruct (body c s sum st) as [[[[[status c'] s'] sum'] | e | | ] st1]
      eqn:Hbody.
  2-4, 6-8: (destruct Hloop as [-> ->];
             exists c, s, sum, st; split; [assumption |];
             split; [assumption |]; intros; left; discriminate).
  all: pose proof Hbody as Hb;
    apply loop_body_normal in Hb as (_ & Hc & _ & _).
  all: destruct ((status =? GSL_CONTINUE) && (c' <? maximumIterations))
         eqn:Hcont.
  all: try (apply andb_true_iff in Hcont as [Hs Hlt];
            apply Z.eqb_eq in Hs; apply Z.ltb_lt in Hlt; subst status).
  - exfalso. lia.
  - unfold ret in Hloop. inversion Hloop; subst r st'.
    exists c, s, sum, st. split; [assumption |].
    split; [assumption |]. now apply loop_left.
  - apply (IH c' s' sum' st1 r st'); [| lia | assumption].
    eapply Iterating_next; eauto.
  - unfold ret in Hloop. inversion Hloop; subst r st'.
    exists c, s, sum, st. split; [assumption |].
    split; [assumption |]. now apply loop_left.
Qed.

Lemma rows_app (a b : ostringstream) : rows (a ++ b) = rows a ++ rows b.
Proof.
  induction a as [| [| c s | t |] a IH]; simpl; auto. now rewrite IH.
Qed.

(** The rows written so far, with the one the next pass will write:
    they are numbered from 0, and the first holds the solver as
    [gsl_multiroot_fsolver_set] left it. *)
Lemma iterating_rows st0 counter solver summary st :
  reaches st0 counter solver summary st ->
  exists initialGuess st_g seed st_s,
    read_guess st0 = (Normal initialGuess, st_g) /\
    set_solver initialGuess st_g = (Normal seed, st_s) /\
    hd_error (rows summary ++ [(counter, solver)]) = Some (0, seed) /\
    map fst (rows summary ++ [(counter, solver)])
    = seqZ 0 (counter + 1).
Proof.
  induction 1 as [g st s st1 Hg Hs
                 | c s sum st c' s' sum' st' Hreach IH Hbody Hlt].
  - exists g, st, s, st1. auto.
  - destruct IH as (g & st_g & seed & st_s & Hg & Hs & Hhd & Hidx).
    exists g, st_g, seed, st_s. split; [assumption |].
    split; [assumption |].
    apply iterating_counter in Hreach as [Hc0 _].
    apply loop_body_normal in Hbody as (_ & -> & -> & _).
    rewrite rows_app. simpl.
    split.
    + destruct (rows sum ++ [(c, s)]) eqn:E; [discriminate | assumption].
    + rewrite map_app, Hidx. simpl.
      rewrite (seqZ_app 0 (c + 1) 1) by lia.
      f_equal.
Qed.

(** Every solver held by a row after the first failed the step test. *)
Lemma iterating_tests st0 counter solver summary st :
  reaches st0 counter solver summary st ->
  forall k s, In (k, s) (rows summary ++ [(counter, solver)]) ->
              1 <= k -> step_test s = GSL_CONTINUE.
Proof.
  induction 1 as [g st s st1 Hg Hs
                 | c s sum st c' s' sum' st' Hreach IH Hbody Hlt];
    intros k sk Hin Hk.
  - simpl in Hin. destruct Hin as [E | []]. inversion E. lia.
  - apply loop_body_normal in Hbody as (_ & -> & -> & Htest).
    rewrite rows_app in Hin. simpl in Hin.
    apply in_app_or in Hin as [Hin | [E | []]].
    + eauto.
    + inversion E; subst. auto.
Qed.

(** *** After the loop *)

Lemma finish_effect solverStatus counter solver summary st1 r st' :
  finish (solverStatus, counter, solver, summary) st1 = (r, st') ->
  numberOfIterations st' = counter - 1 /\
  solverStatusSummary st'
  = str (summary ++ status_lines solverStatus) /\
  r <> OutOfFuel.
Proof.
  unfold executeAtomSolver_finish, gsl_vector_get. intros E.
  apply bind_inv in E. unfold set_numberOfIterations in E.
  cbv beta iota in E.
  apply bind_inv in E. unfold set_solverStatusSummary in E.
  cbv beta iota in E.
  match type of E with
  | ?m ?s = _ => assert (Hreg : regular true true m)
  end.
  { apply regular_bind; [repeat regular_step | intros].
    apply regular_bind; [apply regular_makeDepartureState | intros].
    apply regular_bind; [apply regular_propagateDepartureState | intros].
    repeat regular_step. }
  destruct Hreg as (r0 & e & Hq & Ht & Hrun).
  rewrite Hrun in E. inversion E; subst r0 st'.
  destruct (silent_apply e
              (mkState (str (summary ++ status_lines solverStatus))
                       (counter - 1) (cerr st1) (calls st1)) (Hq eq_refl))
    as [Hs Hn].
  simpl in *. auto.
Qed.

Lemma iterate_normal st0 solverStatus counter solver summary st1 :
  iterate st0 = (Normal (solverStatus, counter, solver, summary), st1) ->
  exists c s sum st,
    reaches st0 c s sum st /\
    body c s sum st
    = (Normal (solverStatus, counter, solver, summary), st1) /\
    (solverStatus <> GSL_CONTINUE \/ maximumIterations <= counter).
Proof.
  unfold executeAtomSolver_iterate. intros E.
  apply bind_inv in E.
  destruct (read_guess st0) as [[g | e | | ] st_g] eqn:Hg;
    try (destruct E; discriminate).
  apply bind_inv in E.
  destruct (set_solver g st_g) as [[seed | e | | ] st_s] eqn:Hs;
    try (destruct E; discriminate).
  eapply loop_ends in E; [| eapply Iterating_first; eauto | lia].
  destruct E as (c & s & sum & st & Hreach & Hbody & Hexit).
  exists c, s, sum, st. split; [assumption |]. split; [assumption |].
  destruct (Hexit counter solver summary) as [Hne | Hge]; [| now right].
  left. intros ->. now apply Hne.
Qed.

Lemma regular_finish (t : bool) r : regular false t (finish r).
Proof.
  destruct r as [[[solverStatus counter] solver] summary].
  unfold executeAtomSolver_finish, gsl_vector_get.
  apply regular_bind; [apply regular_set_numberOfIterations | intros].
  apply regular_bind; [apply regular_set_solverStatusSummary | intros].
  apply regular_bind; [repeat regular_step | intros].
  apply regular_bind; [apply regular_makeDepartureState | intros].
  apply regular_bind; [apply regular_propagateDepartureState | intros].
  repeat regular_step.
Qed.

Lemma regular_execute : regular false false execute.
Proof.
  unfold executeAtomSolver.
  apply regular_bind; [apply regular_iterate | intros].
  apply regular_finish.
Qed.

Lemma execute_after_loop st0 r st1 :
  iterate st0 = (Normal r, st1) -> execute st0 = finish r st1.
Proof. intros E. unfold executeAtomSolver. now apply bind_Normal. Qed.

Lemma iterate_stuck st0 counter solver summary st
      solverStatus solver' st1 :
  reaches st0 counter solver summary st ->
  iterate_solver solver st = (Normal (solverStatus, solver'), st1) ->
  solverStatus <> 0 ->
  iterate st0
  = (Throw stuck,
     mkState (solverStatusSummary st1) (numberOfIterations st1)
             (cerr st1 ++
              stuck_report solverStatus
                           (summary ++ [SRow counter solver]))
             (calls st1)).
Proof.
  intros Hreach Hit Hne.
  rewrite (iterate_from _ _ _ _ _ Hreach).
  pose proof (loop_body_stuck counter solver summary st _ _ _ Hit Hne)
    as Hbody.
  destruct (Z.to_nat (maximumIterations - 1 - counter));
    simpl; unfold bind; now rewrite Hbody.
Qed.

(** The loop of the model never runs out of passes. *)
Lemma execute_fueled st0 : fst (execute st0) <> OutOfFuel.
Proof.
  unfold executeAtomSolver, bind.
  destruct (iterate st0) as [[v | e | | ] st1] eqn:E; simpl;
    try discriminate.
  - destruct v as [[[solverStatus counter] solver] summary].
    destruct (finish (solverStatus, counter, solver, summary) st1)
      as [r st'] eqn:F.
    now apply finish_effect in F.
  - exfalso. unfold executeAtomSolver_iterate in E.
    apply bind_inv in E.
    destruct (read_guess st0) as [[g | ? | | ] st_g] eqn:Hg;
      try (destruct E; discriminate).
    + apply bind_inv in E.
      destruct (set_solver g st_g) as [[seed | ? | | ] st_s] eqn:Hs;
        try (destruct E; discriminate).
      * eapply loop_ends in E; [| eapply Iterating_first; eauto | lia].
        destruct E as (c & s & sum & st & _ & Hbody & _).
        revert Hbody. apply regular_fueled with (q := true).
        apply regular_loop_body.
      * revert Hs. apply regular_fueled with (q := true).
        apply regular_solver_set.
    + revert Hg. apply regular_fueled with (q := true).
      unfold gsl_vector_set. repeat regular_step.
Qed.

(** *** The claims about the loop *)

(** C2 (amended). When the loop of [executeAtomSolver] is left after the
    step test, with the counter at [counter], the count written to
    [numberOfIterations] is [counter - 1]; it is 0 when
    [maximumIterations] is not positive; when [maximumIterations] is at
    least 1, on a converged outcome ([GSL_SUCCESS]) it is at least 0 and
    less than [maximumIterations], and on an exhausted budget
    ([GSL_CONTINUE]) it is [maximumIterations - 1]. *)
Theorem numberOfIterations_reported st0 solverStatus counter solver
        summary st1 :
  iterate st0 = (Normal (solverStatus, counter, solver, summary), st1) ->
  numberOfIterations (snd (execute st0)) = counter - 1 /\
  (maximumIterations <= 0 ->
   numberOfIterations (snd (execute st0)) = 0) /\
  (1 <= maximumIterations -> solverStatus = GSL_SUCCESS ->
   0 <= numberOfIterations (snd (execute st0)) < maximumIterations) /\
  (1 <= maximumIterations -> solverStatus = GSL_CONTINUE ->
   numberOfIterations (snd (execute st0)) = maximumIterations - 1).
Proof.
  intros E. rewrite (execute_after_loop _ _ _ E).
  destruct (finish (solverStatus, counter, solver, summary) st1)
    as [r st'] eqn:F.
  apply finish_effect in F as (Hn & _ & _). simpl. rewrite Hn.
  apply iterate_normal in E
    as (c & s & sum & st & Hreach & Hbody & Hexit).
  apply iterating_counter in Hreach as [Hc0 Hc].
  apply loop_body_normal in Hbody as (_ & -> & _ & _).
  unfold GSL_SUCCESS, GSL_CONTINUE in *.
  repeat split; intros; try lia.
Qed.

(** C4. When the loop of [executeAtomSolver] is left after the step
    test, the status it is left with is what
    [gsl_multiroot_test_delta] answers on the last step [dx] and the
    iterate [x] of the solver, with [absoluteTolerance] and
    [relativeTolerance] passed as two arguments (the residuals [f] are
    not looked at); the solver of every earlier pass, held by the rows
    after the first, got the answer [GSL_CONTINUE], so the solve is
    converged exactly at the first iterate on which the test answers
    [GSL_SUCCESS]; and the loop is left on [GSL_CONTINUE] only with the
    budget used up. *)
Theorem convergence_is_the_step_test st0 solverStatus counter solver
        summary st1 :
  iterate st0 = (Normal (solverStatus, counter, solver, summary), st1) ->
  solverStatus = step_test solver /\
  (solverStatus = GSL_SUCCESS <-> step_test solver = GSL_SUCCESS) /\
  (forall k s, In (k, s) (rows summary) -> 1 <= k ->
               step_test s = GSL_CONTINUE) /\
  (solverStatus = GSL_CONTINUE -> maximumIterations <= counter).
Proof.
  intros E.
  apply iterate_normal in E
    as (c & s & sum & st & Hreach & Hbody & Hexit).
  apply loop_body_normal in Hbody as (_ & -> & -> & Htest).
  split; [assumption |]. split; [now rewrite Htest |]. split.
  - intros k sk Hin Hk. rewrite rows_app in Hin.
    eapply iterating_tests; eauto.
  - intros Hs. destruct Hexit; [contradiction | assumption].
Qed.

(** C6. Whenever, at a pass of the loop, the single step of the
    Root-Finder reports a code other than 0, [executeAtomSolver] stops
    there: no further call is made, the code and the table written so
    far (the rows of all passes, this one included) go to [std::cerr],
    and the call ends by throwing the runtime error "ERROR: Non-linear
    solver is stuck!", so that no pair of velocities is returned. *)
Theorem stuck_solver_aborts st0 counter solver summary st
        solverStatus solver' st1 :
  reaches st0 counter solver summary st ->
  iterate_solver solver st = (Normal (solverStatus, solver'), st1) ->
  solverStatus <> 0 ->
  execute st0
  = (Throw (runtime_error "ERROR: Non-linear solver is stuck!"),
     mkState (solverStatusSummary st1) (numberOfIterations st1)
             (cerr st1 ++
              [OStr "GSL solver status: "; OInt solverStatus; OEndl;
               OStr (str (summary ++ [SRow counter solver]));
               OEndl; OEndl])
             (calls st1)).
Proof.
  intros Hreach Hit Hne.
  unfold executeAtomSolver, bind.
  now rewrite (iterate_stuck _ _ _ _ _ _ _ _ Hreach Hit Hne).
Qed.

(** C7. When the loop of [executeAtomSolver] is left after the step
    test, converged or with the budget used up, the table of the
    status summary has as many rows as [numberOfIterations] plus 1,
    numbered from 0; the first row was written from the solver as
    [gsl_multiroot_fsolver_set] left it on the initial guess, before
    any step, and each further row at the head of a further pass. *)
Theorem trace_rows st0 solverStatus counter solver summary st1 :
  iterate st0 = (Normal (solverStatus, counter, solver, summary), st1) ->
  exists trace,
    solverStatusSummary (snd (execute st0)) = str trace /\
    Z.of_nat (length (rows trace))
    = numberOfIterations (snd (execute st0)) + 1 /\
    map fst (rows trace)
    = seqZ 0 (numberOfIterations (snd (execute st0)) + 1) /\
    exists initialGuess st_g seed st_s,
      read_guess st0 = (Normal initialGuess, st_g) /\
      set_solver initialGuess st_g = (Normal seed, st_s) /\
      hd_error (rows trace) = Some (0, seed).
Proof.
  intros E. rewrite (execute_after_loop _ _ _ E).
  destruct (finish (solverStatus, counter, solver, summary) st1)
    as [r st'] eqn:F.
  apply finish_effect in F as (Hn & Hs & _). simpl.
  exists (summary ++ status_lines solverStatus).
  split; [assumption |]. rewrite Hn.
  apply iterate_normal in E
    as (c & s & sum & st & Hreach & Hbody & Hexit).
  apply loop_body_normal in Hbody as (_ & -> & -> & _).
  pose proof (iterating_counter _ _ _ _ _ Hreach) as [Hc0 _].
  apply iterating_rows in Hreach
    as (g & st_g & seed & st_s & Hg & Hset & Hhd & Hidx).
  rewrite !rows_app. simpl. rewrite List.app_nil_r.
  replace (c + 1 - 1 + 1) with (c + 1) by lia.
  split; [| split; [assumption |]].
  - rewrite <- (length_map fst), Hidx, length_seqZ. lia.
  - exists g, st_g, seed, st_s. auto.
Qed.

(** C8. Two calls of [executeAtomSolver] on the same arguments end the
    same way, whatever the state each starts in (what the referenced
    variables hold, what the streams have received): the same pair of
    velocities or the same exception; on return the same status
    summary and the same number of iterations; and one and the same
    effect on the state, which adds the same output to [std::cerr] and the
    same outside calls to what was there. *)
Theorem executeAtomSolver_same_from_every_state st1 st2 :
  fst (execute st1) = fst (execute st2) /\
  match fst (execute st1) with
  | Normal _ =>
      solverStatusSummary (snd (execute st1))
      = solverStatusSummary (snd (execute st2)) /\
      numberOfIterations (snd (execute st1))
      = numberOfIterations (snd (execute st2))
  | _ => True
  end /\
  exists e : Effect,
    snd (execute st1) = apply e st1 /\ snd (execute st2) = apply e st2.
Proof.
  destruct regular_execute as (r & e & _ & _ & Hrun).
  split; [now rewrite !Hrun |]. split.
  - destruct (regular_iterate true) as (ri & ei & _ & _ & Hit).
    destruct ri as [[[[status c] s] sum] | ex | | ].
    + rewrite (execute_after_loop _ _ _ (Hit st1)),
              (execute_after_loop _ _ _ (Hit st2)).
      destruct (finish (status, c, s, sum) (apply ei st1))
        as [r1 st1'] eqn:F1.
      destruct (finish (status, c, s, sum) (apply ei st2))
        as [r2 st2'] eqn:F2.
      apply finish_effect in F1 as (Hn1 & Hs1 & _).
      apply finish_effect in F2 as (Hn2 & Hs2 & _).
      simpl. destruct r1; auto. split; congruence.
    + unfold executeAtomSolver, bind. now rewrite Hit.
    + unfold executeAtomSolver, bind. now rewrite Hit.
    + unfold executeAtomSolver, bind. now rewrite Hit.
  - exists e. now rewrite !Hrun.
Qed.

(** C10. When [executeAtomSolver] ends on the stuck Root-Finder (at a
    pass of the loop the single step reports a code other than 0), the
    variables bound to [solverStatusSummary] and [numberOfIterations]
    hold what they held at entry. *)
Theorem stuck_leaves_references st0 counter solver summary st
        solverStatus solver' st1 :
  reaches st0 counter solver summary st ->
  iterate_solver solver st = (Normal (solverStatus, solver'), st1) ->
  solverStatus <> 0 ->
  fst (execute st0) = Throw stuck /\
  solverStatusSummary (snd (execute st0)) = solverStatusSummary st0 /\
  numberOfIterations (snd (execute st0)) = numberOfIterations st0.
Proof.
  intros Hreach Hit Hne.
  pose proof (iterate_stuck _ _ _ _ _ _ _ _ Hreach Hit Hne) as E.
  destruct (regular_iterate true) as (r & e & Hq & _ & Hrun).
  unfold executeAtomSolver, bind. rewrite E. simpl.
  destruct (silent_apply e st0 (Hq eq_refl)) as [Hs Hn].
  assert (Hst : snd (iterate st0) = apply e st0) by now rewrite Hrun.
  rewrite E in Hst. simpl in Hst. rewrite <- Hst in Hs, Hn. auto.
Qed.

(** *** The outside calls and the output of a call *)

Lemma steps_made_app (l1 l2 : list Event) :
  steps_made (l1 ++ l2) = (steps_made l1 + steps_made l2)%nat.
Proof. unfold steps_made. now rewrite List.filter_app, length_app. Qed.

Lemma steps_made_none (l : list Event) :
  forallb not_a_step l = true -> steps_made l = 0%nat.
Proof.
  unfold steps_made, not_a_step.
  induction l as [| e l IH]; simpl; [reflexivity |].
  intros Hall. apply andb_true_iff in Hall as [He Hl].
  destruct (is_step e); [discriminate | auto].
Qed.

Lemma adapter_event_not_a_step (e : Event) :
  adapter_event e = true -> not_a_step e = true.
Proof. now destruct e. Qed.

Lemma confined_set_numberOfIterations (a : Event -> bool) (n : Z) :
  confined a (set_numberOfIterations n).
Proof.
  intros st r st' E. unfold set_numberOfIterations in E.
  inversion E; subst; simpl. split; [reflexivity |]. exists [].
  now rewrite List.app_nil_r.
Qed.

Lemma confined_set_solverStatusSummary (a : Event -> bool) (t : string) :
  confined a (set_solverStatusSummary t).
Proof.
  intros st r st' E. unfold set_solverStatusSummary in E.
  inversion E; subst; simpl. split; [reflexivity |]. exists [].
  now rewrite List.app_nil_r.
Qed.

Lemma confined_read_guess (a : Event -> bool) : confined a read_guess.
Proof. unfold gsl_vector_set. repeat confined_step. Qed.

Lemma confined_solver_set initialGuess :
  confined not_a_step (set_solver initialGuess).
Proof.
  unfold solver_set. apply confined_bind; [now apply confined_log |].
  intros _. eapply confined_weaken; [| apply confined_run_gsl].
  apply adapter_event_not_a_step.
Qed.

Lemma confined_finish r : confined adapter_event (finish r).
Proof.
  destruct r as [[[solverStatus counter] solver] summary].
  unfold executeAtomSolver_finish, gsl_vector_get.
  apply confined_bind; [apply confined_set_numberOfIterations | intros].
  apply confined_bind; [apply confined_set_solverStatusSummary | intros].
  apply confined_bind; [repeat confined_step | intros].
  apply confined_bind; [apply confined_makeDepartureState | intros].
  apply confined_bind; [apply confined_propagateDepartureState | intros].
  repeat confined_step.
Qed.

(** A single step of the Root-Finder is logged once, whatever its
    evaluations of the residual function do. *)
Lemma solver_iterate_calls solver st r st' :
  iterate_solver solver st = (r, st') ->
  cerr st' = cerr st /\
  exists made,
    calls st' = calls st ++ EvSolverIterate :: made /\
    forallb adapter_event made = true.
Proof.
  unfold solver_iterate. intros E. apply bind_inv in E.
  unfold log in E. cbv beta iota in E.
  apply confined_run_gsl in E as (Hc & made & Hcalls & Hall). simpl in *.
  split; [assumption |]. exists made.
  now rewrite Hcalls, <- List.app_assoc.
Qed.

Lemma loop_body_calls counter solver summary st r st' :
  body counter solver summary st = (r, st') ->
  (exists made,
      calls st' = calls st ++ EvSolverIterate :: made /\
      forallb adapter_event made = true) /\
  (cerr st' = cerr st \/
   r = Throw stuck /\
   exists solverStatus,
     solverStatus <> 0 /\
     cerr st'
     = cerr st ++ stuck_report solverStatus
                    (summary ++ [SRow counter solver])).
Proof.
  unfold loop_body. intros E. apply bind_inv in E.
  destruct (iterate_solver solver st) as [[[code s1] | e | | ] st1] eqn:Hit;
    apply solver_iterate_calls in Hit as (Hc & Hmade).
  2-4: (destruct E as [_ ->]; split; [assumption | now left]).
  destruct (code =? 0) eqn:Hcode; simpl in E.
  - unfold ret in E. inversion E; subst. split; [assumption | now left].
  - unfold bind, cerr_write, throw in E. inversion E; subst; simpl.
    split; [assumption |]. right. split; [reflexivity |].
    exists code. apply Z.eqb_neq in Hcode. now rewrite Hc.
Qed.

(** At the head of a pass nothing has been written to [std::cerr], and
    the steps made are as many as the counter says. *)
Lemma iterating_calls st0 counter solver summary st :
  reaches st0 counter solver summary st ->
  cerr st = cerr st0 /\
  exists made,
    calls st = calls st0 ++ made /\
    Z.of_nat (steps_made made) = counter.
Proof.
  induction 1 as [g st s st1 Hg Hs
                 | c s sum st c' s' sum' st' Hreach IH Hbody Hlt].
  - apply (confined_read_guess not_a_step) in Hg as (Hc1 & l1 & Hl1 & Ha1).
    apply confined_solver_set in Hs as (Hc2 & l2 & Hl2 & Ha2).
    split; [congruence |]. exists (l1 ++ l2).
    rewrite Hl2, Hl1, <- List.app_assoc. split; [reflexivity |].
    now rewrite steps_made_app, !steps_made_none.
  - destruct IH as (Hc & made & Hcalls & Hsteps).
    pose proof Hbody as Hb.
    apply loop_body_normal in Hb as (_ & -> & _ & _).
    apply loop_body_calls in Hbody
      as ((l & Hl & Hall) & [Hcerr | [Habs _]]); [| discriminate].
    split; [congruence |]. exists (made ++ EvSolverIterate :: l).
    rewrite Hl, Hcalls, <- List.app_assoc. split; [reflexivity |].
    rewrite steps_made_app.
    change (EvSolverIterate :: l) with ([EvSolverIterate] ++ l).
    rewrite steps_made_app, (steps_made_none l).
    + simpl. lia.
    + eapply forallb_forall. intros e He.
      apply adapter_event_not_a_step.
      now apply (proj1 (forallb_forall adapter_event l) Hall).
Qed.

(** However the part of the call up to the end of the loop ends. *)
Lemma iterate_calls st0 r st1 :
  iterate st0 = (r, st1) ->
  (exists made,
      calls st1 = calls st0 ++ made /\
      Z.of_nat (steps_made made) <= Z.max 1 maximumIterations /\
      forall solverStatus counter solver summary,
        r = Normal (solverStatus, counter, solver, summary) ->
        Z.of_nat (steps_made made) = counter) /\
  (cerr st1 = cerr st0 \/
   r = Throw stuck /\
   exists solverStatus summary,
     solverStatus <> 0 /\
     cerr st1 = cerr st0 ++ stuck_report solverStatus summary).
Proof.
  unfold executeAtomSolver_iterate. intros E. apply bind_inv in E.
  destruct (read_guess st0) as [[g | e | | ] st_g] eqn:Hg;
    pose proof (confined_read_guess not_a_step _ _ _ Hg)
      as (Hc1 & l1 & Hl1 & Ha1).
  2-4: (destruct E as [-> ->]; split; [| now left];
        exists l1; split; [assumption |];
        rewrite (steps_made_none _ Ha1); split; [lia | discriminate]).
  apply bind_inv in E.
  destruct (set_solver g st_g) as [[seed | e | | ] st_s] eqn:Hs;
    pose proof (confined_solver_set _ _ _ _ Hs) as (Hc2 & l2 & Hl2 & Ha2).
  2-4: (destruct E as [-> ->]; split; [| left; congruence];
        exists (l1 ++ l2); rewrite Hl2, Hl1, <- List.app_assoc;
        split; [reflexivity |];
        rewrite steps_made_app, !steps_made_none by assumption;
        split; [simpl; lia | discriminate]).
  eapply loop_ends in E; [| eapply Iterating_first; eauto | lia].
  destruct E as (c & s & sum & st & Hreach & Hbody & _).
  pose proof (iterating_counter _ _ _ _ _ Hreach) as [Hc0 Hc].
  pose proof (iterating_calls _ _ _ _ _ Hreach)
    as (Hcerr & made & Hcalls & Hsteps).
  pose proof (loop_body_calls _ _ _ _ _ _ Hbody) as ((l & Hl & Hall) & Hout).
  assert (Hl0 : steps_made l = 0%nat).
  { apply steps_made_none. eapply forallb_forall. intros e He.
    apply adapter_event_not_a_step.
    now apply (proj1 (forallb_forall adapter_event l) Hall). }
  split.
  - exists (made ++ EvSolverIterate :: l).
    rewrite Hl, Hcalls, <- List.app_assoc. split; [reflexivity |].
    rewrite steps_made_app.
    change (EvSolverIterate :: l) with ([EvSolverIterate] ++ l).
    rewrite steps_made_app, Hl0. simpl. split; [lia |].
    intros status c' s' sum' ->.
    apply loop_body_normal in Hbody as (_ & -> & _ & _). lia.
  - destruct Hout as [Hsame | (Hr & status & Hne & Hrep)].
    + left. congruence.
    + right. split; [assumption |].
      exists status, (sum ++ [SRow c s]). split; [assumption |].
      now rewrite Hrep, Hcerr.
Qed.

(** X4. In every call of [executeAtomSolver], however it ends, the single
    step of the Root-Finder is made at most [maximumIterations] times, and
    at most once when [maximumIterations] is less than 1; when the loop is
    left after the step test, the steps made are as many as the counter
    says, one more than the count written to [numberOfIterations]. *)
Theorem steps_within_budget st0 :
  exists made,
    calls (snd (execute st0)) = calls st0 ++ made /\
    Z.of_nat (steps_made made) <= Z.max 1 maximumIterations /\
    forall solverStatus counter solver summary st1,
      iterate st0 = (Normal (solverStatus, counter, solver, summary), st1) ->
      Z.of_nat (steps_made made) = counter /\
      Z.of_nat (steps_made made)
      = numberOfIterations (snd (execute st0)) + 1.
Proof.
  unfold executeAtomSolver at 1 2, bind.
  destruct (iterate st0) as [ri st1] eqn:E.
  pose proof (iterate_calls _ _ _ E) as ((made & Hcalls & Hbound & Hnorm) & _).
  destruct ri as [v | e | | ].
  - destruct (finish v st1) as [r st'] eqn:F. simpl.
    pose proof (confined_finish _ _ _ _ F) as (_ & l & Hl & Hall).
    exists (made ++ l). rewrite Hl, Hcalls, <- List.app_assoc.
    split; [reflexivity |].
    rewrite steps_made_app, (steps_made_none l).
    + rewrite Nat.add_0_r. split; [assumption |].
      intros status c s sum st2 E2. inversion E2; subst v st2.
      apply finish_effect in F as (Hn & _ & _).
      rewrite Hn, (Hnorm _ _ _ _ eq_refl). lia.
    + eapply forallb_forall. intros ev He.
      apply adapter_event_not_a_step.
      now apply (proj1 (forallb_forall adapter_event l) Hall).
  - simpl. exists made. repeat split; auto; discriminate.
  - simpl. exists made. repeat split; auto; discriminate.
  - simpl. exists made. repeat split; auto; discriminate.
Qed.


(** X8. When, at a pass of the loop, an evaluation of the residual
    function made by the single step of the Root-Finder ends with an
    exception, [executeAtomSolver] ends with that exception at once:
    unlike on a stuck Root-Finder nothing is written to [std::cerr], and
    the two referenced variables hold what they held at entry. *)
Theorem evaluation_failure_unwinds st0 counter solver summary st e st1 :
  reaches st0 counter solver summary st ->
  iterate_solver solver st = (Throw e, st1) ->
  executeAtomSolver departurePosition departureEpoch arrivalPosition
    timeOfFlight departureVelocityGuess referenceTle
    earthGravitationalParameter earthMeanRadius absoluteTolerance
    relativeTolerance maximumIterations st0
  = (Throw e, st1) /\
  cerr st1 = cerr st0 /\
  solverStatusSummary st1 = solverStatusSummary st0 /\
  numberOfIterations st1 = numberOfIterations st0.
Proof.
  intros Hreach Hit.
  assert (Hbody : body counter solver summary st = (Throw e, st1)).
  { unfold loop_body, bind. now rewrite Hit. }
  assert (E : iterate st0 = (Throw e, st1)).
  { rewrite (iterate_from _ _ _ _ _ Hreach).
    destruct (Z.to_nat (maximumIterations - 1 - counter));
      simpl; unfold bind; now rewrite Hbody. }
  split; [unfold executeAtomSolver, bind; now rewrite E |].
  split.
  - apply iterating_calls in Hreach as (Hc & _).
    apply solver_iterate_calls in Hit as (Hc' & _). congruence.
  - destruct (regular_iterate true) as (r & ef & Hq & _ & Hrun).
    destruct (silent_apply ef st0 (Hq eq_refl)) as [Hs Hn].
    assert (Hst : snd (iterate st0) = apply ef st0) by now rewrite Hrun.
    rewrite E in Hst. simpl in Hst. rewrite <- Hst in Hs, Hn. auto.
Qed.

(** *** What is returned *)

Local Abbreviation bundle :=
  (parameters departurePosition departureEpoch arrivalPosition
     timeOfFlight referenceTle earthGravitationalParameter
     earthMeanRadius absoluteTolerance relativeTolerance
     maximumIterations).

Lemma finish_value solverStatus counter solver summary st1 :
  length departurePosition = 3%nat ->
  length (fsolver_x solver) = 3%nat ->
  fst (finish (solverStatus, counter, solver, summary) st1)
  = match adapters bundle (departurePosition ++ fsolver_x solver) with
    | inl e => Throw e
    | inr arrival =>
        Normal (fsolver_x solver,
                [x (Velocity arrival); y (Velocity arrival);
                 z (Velocity arrival)])
    end.
Proof.
  intros Hp Hx. unfold executeAtomSolver_finish.
  unfold bind at 1. unfold set_numberOfIterations at 1. cbv beta iota.
  unfold bind at 1. unfold set_solverStatusSummary at 1. cbv beta iota.
  match goal with
  | |- fst (_ ?s) = _ =>
      pose proof (propagateDepartureState_value bundle
                    (departurePosition ++ fsolver_x solver) s) as Hprop
  end.
  simpl in Hprop.
  destruct departurePosition as [| p0 [| p1 [| p2 [| ? ?]]]];
    try discriminate.
  destruct (fsolver_x solver) as [| x0 [| x1 [| x2 [| ? ?]]]];
    try discriminate.
  rewrite (bind_Normal _ _ _ _ _ (read_three_3 x0 x1 x2 _)).
  rewrite (bind_Normal _ _ _ _ _ (makeDepartureState_3 p0 p1 p2 x0 x1 x2 _)).
  simpl app in *. unfold bind at 1.
  destruct (propagateDepartureState _ _ _ _ _ _ _ _ _ _)
    as [[arrival | e | | ] st'];
    simpl in Hprop;
    destruct (adapters _ [p0; p1; p2; x0; x1; x2]) as [e' | arrival'];
    try discriminate; inversion Hprop; subst; reflexivity.
Qed.

(** X6. When the loop of [executeAtomSolver] is left after the step test,
    on whatever status, with a departure position and an iterate of three
    components, the call ends as the conversion and the propagation of the
    departure position followed by the last iterate do: it returns the
    last iterate as the departure velocity, converged or not, with the
    velocity of the propagated state as the arrival velocity, or it passes
    on the exception of the adapters. *)
Theorem velocities_returned st0 solverStatus counter solver summary st1 :
  iterate st0 = (Normal (solverStatus, counter, solver, summary), st1) ->
  length departurePosition = 3%nat ->
  length (fsolver_x solver) = 3%nat ->
  fst (execute st0)
  = match adapters bundle (departurePosition ++ fsolver_x solver) with
    | inl e => Throw e
    | inr arrival =>
        Normal (fsolver_x solver,
                [x (Velocity arrival); y (Velocity arrival);
                 z (Velocity arrival)])
    end.
Proof.
  intros E Hp Hx. rewrite (execute_after_loop _ _ _ E).
  now apply finish_value.
Qed.

(** X7. When the loop has been left after the step test and the
    conversion or the propagation of the final departure state then fails,
    [executeAtomSolver] ends with that exception after the two referenced
    variables have been assigned: the caller finds the count and the
    status summary of the finished loop, not what it had put there. *)
Theorem late_failure_after_assignment st0 solverStatus counter solver
        summary st1 e :
  iterate st0 = (Normal (solverStatus, counter, solver, summary), st1) ->
  length departurePosition = 3%nat ->
  length (fsolver_x solver) = 3%nat ->
  adapters bundle (departurePosition ++ fsolver_x solver) = inl e ->
  fst (execute st0) = Throw e /\
  numberOfIterations (snd (execute st0)) = counter - 1 /\
  solverStatusSummary (snd (execute st0))
  = str (summary ++ status_lines solverStatus).
Proof.
  intros E Hp Hx Hfail. rewrite (execute_after_loop _ _ _ E).
  pose proof (finish_value solverStatus counter solver summary st1 Hp Hx)
    as Hv.
  rewrite Hfail in Hv. split; [assumption |].
  destruct (finish (solverStatus, counter, solver, summary) st1)
    as [r st'] eqn:F.
  now apply finish_effect in F as (Hn & Hs & _).
Qed.

(** X1. A velocity guess of fewer than three components is read outside
    its bounds before anything else happens: the behaviour of
    [executeAtomSolver] is undefined from there, no outside call has been
    made and nothing has been written. *)
Theorem short_guess_is_undefined st0 :
  (length departureVelocityGuess < 3)%nat ->
  executeAtomSolver departurePosition departureEpoch arrivalPosition
    timeOfFlight departureVelocityGuess referenceTle
    earthGravitationalParameter earthMeanRadius absoluteTolerance
    relativeTolerance maximumIterations st0
  = (Undefined, st0).
Proof.
  intros Hlen. unfold executeAtomSolver, executeAtomSolver_iterate.
  destruct departureVelocityGuess as [| g0 [| g1 [| g2 rest]]];
    [reflexivity | reflexivity | reflexivity | simpl in Hlen; lia].
Qed.

(** *** The table as the history of the solver *)

Lemma linked_snoc {A} (R : A -> A -> Prop) (l : list A) (a b : A) :
  linked R (l ++ [a]) -> R a b -> linked R ((l ++ [a]) ++ [b]).
Proof.
  intros Hl Hab. induction l as [| c l IH].
  - simpl. auto.
  - change ((c :: l) ++ [a]) with (c :: (l ++ [a])) in *.
    destruct (l ++ [a]) as [| d rest] eqn:E.
    + destruct l; discriminate.
    + destruct Hl as [Hcd Hrest]. simpl. split; [assumption |].
      now apply IH.
Qed.

Lemma solver_iterate_anywhere solver st r st' :
  iterate_solver solver st = (r, st') ->
  forall st2, fst (iterate_solver solver st2) = r.
Proof.
  destruct (regular_solver_iterate false false solver)
    as (r0 & e & _ & _ & Hrun).
  rewrite Hrun. intros E st2. rewrite Hrun. now inversion E.
Qed.

Local Abbreviation follows :=
  (next_row departurePosition departureEpoch arrivalPosition
     timeOfFlight referenceTle earthGravitationalParameter
     earthMeanRadius absoluteTolerance relativeTolerance
     maximumIterations).

Lemma iterating_history st0 counter solver summary st :
  reaches st0 counter solver summary st ->
  linked follows (rows summary ++ [(counter, solver)]) /\
  summary = SHeader :: map row_item (rows summary).
Proof.
  induction 1 as [g st s st1 Hg Hs
                 | c s sum st c' s' sum' st' Hreach [IHl IHs] Hbody Hlt].
  - simpl. auto.
  - apply loop_body_normal in Hbody as (Hit & -> & -> & _).
    rewrite rows_app. simpl. split.
    + apply linked_snoc; [assumption |]. split; [reflexivity |].
      simpl. eapply solver_iterate_anywhere; eauto.
    + rewrite map_app. simpl. rewrite List.app_comm_cons, <- IHs.
      reflexivity.
Qed.

(** X11. When the loop of [executeAtomSolver] is left after the step test,
    the rows of the table, followed by the counter and the solver the loop
    is left with, are the history of the solver: each is numbered one more
    than the row before it and holds the solver that a single step of the
    Root-Finder, reporting 0, makes of the solver of the row before. *)
Theorem table_is_the_history st0 solverStatus counter solver summary st1 :
  iterate st0 = (Normal (solverStatus, counter, solver, summary), st1) ->
  linked follows (rows summary ++ [(counter, solver)]).
Proof.
  intros E.
  apply iterate_normal in E as (c & s & sum & st & Hreach & Hbody & _).
  apply loop_body_normal in Hbody as (Hit & -> & -> & _).
  apply iterating_history in Hreach as [Hl _].
  rewrite rows_app. simpl. apply linked_snoc; [assumption |].
  split; [reflexivity |]. simpl. eapply solver_iterate_anywhere; eauto.
Qed.

Lemma concat_cons (t : string) (l : list string) :
  String.concat "" (t :: l) = String.append t (String.concat "" l).
Proof.
  destruct l as [| u l]; simpl; [| reflexivity].
  induction t as [| a t IH]; simpl; [reflexivity | now rewrite <- IH].
Qed.

Lemma string_append_assoc (t u v : string) :
  String.append (String.append t u) v
  = String.append t (String.append u v).
Proof.
  induction t as [| c t IH]; simpl; [reflexivity | now rewrite IH].
Qed.

Lemma str_cons (i : SummaryItem) (l : ostringstream) :
  str (i :: l) = String.append (render i) (str l).
Proof. unfold str. simpl map. apply concat_cons. Qed.

Lemma str_app (a b : ostringstream) :
  str (a ++ b) = String.append (str a) (str b).
Proof.
  induction a as [| i a IH]; [reflexivity |].
  now rewrite <- List.app_comm_cons, !str_cons, IH, string_append_assoc.
Qed.

Lemma str_rows (table : list (Z * fsolver)) :
  str (map row_item table)
  = String.concat ""
      (map (fun row => printAtomSolverState (fst row) (snd row)) table).
Proof.
  induction table as [| row table IH]; [reflexivity |].
  simpl map. now rewrite str_cons, concat_cons, IH.
Qed.

Lemma str_status_lines (solverStatus : Z) :
  str (status_lines solverStatus)
  = String.append endl
      (String.append "Status of non-linear solver: "
         (String.append (gsl_strerror solverStatus)
            (String.append endl endl))).
Proof.
  unfold status_lines. rewrite !str_cons. reflexivity.
Qed.

(** X10. When the loop of [executeAtomSolver] is left after the step test,
    the status summary handed to the caller is, in this order: the header
    of the table, one printed line for each row of the table, a line
    break, the words "Status of non-linear solver: " with what
    [gsl_strerror] gives for the status the loop was left with, and two
    line breaks. *)
Theorem status_summary_layout st0 solverStatus counter solver summary st1 :
  iterate st0 = (Normal (solverStatus, counter, solver, summary), st1) ->
  solverStatusSummary (snd (execute st0))
  = String.append printAtomSolverStateTableHeader
      (String.append
         (String.concat ""
            (map (fun row => printAtomSolverState (fst row) (snd row))
                 (rows summary)))
         (String.append endl
            (String.append "Status of non-linear solver: "
               (String.append (gsl_strerror solverStatus)
                  (String.append endl endl))))).
Proof.
  intros E. rewrite (execute_after_loop _ _ _ E).
  destruct (finish (solverStatus, counter, solver, summary) st1)
    as [r st'] eqn:F.
  apply finish_effect in F as (_ & Hs & _).
  change (solverStatusSummary (snd (r, st')))
    with (solverStatusSummary st').
  rewrite Hs, str_app, str_status_lines.
  apply iterate_normal in E as (c & s & sum & st & Hreach & Hbody & _).
  apply loop_body_normal in Hbody as (_ & -> & -> & _).
  apply iterating_history in Hreach as [_ Hsum].
  assert (Hlay : sum ++ [SRow c s]
                 = SHeader :: map row_item (rows (sum ++ [SRow c s]))).
  { rewrite rows_app, map_app. simpl rows. simpl map.
    now rewrite List.app_comm_cons, <- Hsum. }
  rewrite Hlay at 1. rewrite str_cons, str_rows.
  apply string_append_assoc.
Qed.

(** X9. Whenever, at a pass of the loop, the single step of the
    Root-Finder reports 0 and then the step test answers anything but
    [GSL_CONTINUE] (an error code as well as [GSL_SUCCESS]), or the counter
    has reached [maximumIterations], the loop is left at that pass with
    the answer of the test as its status, and the counter before the pass
    is the count written to [numberOfIterations]. *)
Theorem loop_left_after_test st0 counter solver summary st solver' st1 :
  reaches st0 counter solver summary st ->
  iterate_solver solver st = (Normal (0, solver'), st1) ->
  step_test solver' <> GSL_CONTINUE \/ maximumIterations <= counter + 1 ->
  iterate st0
  = (Normal (step_test solver', counter + 1, solver',
             summary ++ [SRow counter solver]), st1) /\
  numberOfIterations (snd (execute st0)) = counter.
Proof.
  intros Hreach Hit Hexit.
  assert (Hbody : body counter solver summary st
                  = (Normal (step_test solver', counter + 1, solver',
                             summary ++ [SRow counter solver]), st1)).
  { unfold loop_body, bind. now rewrite Hit. }
  assert (Hcond : (step_test solver' =? GSL_CONTINUE)
                  && (counter + 1 <? maximumIterations) = false).
  { apply andb_false_iff. destruct Hexit as [Hne | Hge].
    - left. now apply Z.eqb_neq.
    - right. now apply Z.ltb_ge. }
  assert (E : iterate st0
              = (Normal (step_test solver', counter + 1, solver',
                         summary ++ [SRow counter solver]), st1)).
  { rewrite (iterate_from _ _ _ _ _ Hreach).
    destruct (Z.to_nat (maximumIterations - 1 - counter));
      simpl; unfold bind; rewrite Hbody, Hcond; reflexivity. }
  split; [assumption |].
  rewrite (execute_after_loop _ _ _ E).
  destruct (finish _ st1) as [r st'] eqn:F.
  apply finish_effect in F as (Hn & _ & _). simpl. lia.
Qed.

End Solve.

Lemma bind_assoc {A B C} (m : M A) (k : A -> M B) (h : B -> M C) st :
  bind (bind m k) h st = bind m (fun a => bind (k a) h) st.
Proof. unfold bind. now destruct (m st) as [[a | e | | ] st1]. Qed.

Lemma read_guess_3 g0 g1 g2 rest st :
  for_loop 3 0 (fun i initialGuess =>
      g <- Vector_get (g0 :: g1 :: g2 :: rest) i ;;
      gsl_vector_set initialGuess i g) (gsl_vector_alloc 3) st
  = (Normal [g0; g1; g2], st).
Proof. reflexivity. Qed.

(** C1 (amended). [executeAtomSolver] validates nothing: whatever the
    time of flight, the tolerances and the iteration budget are
    (non-positive ones included) and whatever the position vectors hold,
    a call whose velocity guess has at least three components begins by
    initialising the Root-Finder on that guess; no input is rejected
    before. *)
Theorem executeAtomSolver_validates_nothing
        departurePosition departureEpoch arrivalPosition timeOfFlight
        g0 g1 g2 rest referenceTle earthGravitationalParameter
        earthMeanRadius absoluteTolerance relativeTolerance
        maximumIterations st0 :
  exists made,
    calls (snd (executeAtomSolver departurePosition departureEpoch
                  arrivalPosition timeOfFlight (g0 :: g1 :: g2 :: rest)
                  referenceTle earthGravitationalParameter earthMeanRadius
                  absoluteTolerance relativeTolerance maximumIterations
                  st0))
    = calls st0 ++ EvSolverSet [g0; g1; g2] :: made.
Proof.
  unfold executeAtomSolver, executeAtomSolver_iterate.
  rewrite bind_assoc, (bind_Normal _ _ _ _ _ (read_guess_3 _ _ _ _ _)).
  unfold solver_set. rewrite !bind_assoc.
  unfold bind at 1, log. cbv beta iota.
  match goal with
  | |- context [snd (?m ?s)] => assert (Hreg : regular false false m)
  end.
  { apply regular_bind; [apply regular_run_gsl | intros].
    apply regular_bind; [apply regular_do_while | intros].
    apply regular_finish. }
  destruct Hreg as (r & e & _ & _ & Hrun). rewrite Hrun. simpl.
  exists (e_calls e). now rewrite <- List.app_assoc.
Qed.

(** C9. For every input, the overload of [executeAtomSolver] without
    the two reference parameters ends as the full one does on the default
    reference TLE, [kMU], [kXKMPER], the tolerances 1.0e-10 and 1.0e-5
    and 100 iterations: the same pair of departure and arrival
    velocities, or the same exception; what the caller of the full one
    has bound to the references plays no part. *)
Theorem overloads_agree departurePosition departureEpoch arrivalPosition
        timeOfFlight departureVelocityGuess st st' :
  fst (executeAtomSolver' departurePosition departureEpoch arrivalPosition
         timeOfFlight departureVelocityGuess st)
  = fst (executeAtomSolver departurePosition departureEpoch arrivalPosition
           timeOfFlight departureVelocityGuess Tle_default kMU kXKMPER
           (Real_of_Q (1 # 10000000000)) (Real_of_Q (1 # 100000)) 100
           st').
Proof.
  unfold executeAtomSolver'.
  destruct (regular_execute departurePosition departureEpoch
              arrivalPosition timeOfFlight departureVelocityGuess
              Tle_default kMU kXKMPER (Real_of_Q (1 # 10000000000))
              (Real_of_Q (1 # 100000)) 100) as (r & e & _ & _ & Hrun).
  now rewrite !Hrun.
Qed.

(** ** Components past the third *)

Lemma bind_ext {A B} (m m' : M A) (k k' : A -> M B) st :
  (forall s, m s = m' s) -> (forall a s, k a s = k' a s) ->
  bind m k st = bind m' k' st.
Proof.
  intros Hm Hk. unfold bind. rewrite Hm.
  destruct (m' st) as [[a | e | | ] s1]; auto.
Qed.

Lemma makeDepartureState_tail p0 p1 p2 rest velocity st :
  makeDepartureState (p0 :: p1 :: p2 :: rest) velocity st
  = makeDepartureState [p0; p1; p2] velocity st.
Proof. destruct velocity as [| v0 [| v1 [| v2 vr]]]; reflexivity. Qed.

Section Tails.

Variables (p0 p1 p2 : Real) (p_rest : list Real) (epoch : DateTime)
          (a0 a1 a2 : Real) (a_rest : list Real) (tof : Real)
          (reference : Tle) (mu radius absTol relTol : Real)
          (maxIter : Z).

Local Abbreviation long_bundle :=
  (parameters (p0 :: p1 :: p2 :: p_rest) epoch (a0 :: a1 :: a2 :: a_rest)
     tof reference mu radius absTol relTol maxIter).
Local Abbreviation short_bundle :=
  (parameters [p0; p1; p2] epoch [a0; a1; a2]
     tof reference mu radius absTol relTol maxIter).

Lemma computeAtomResiduals_tail point buffer st :
  computeAtomResiduals point long_bundle buffer st
  = computeAtomResiduals point short_bundle buffer st.
Proof.
  unfold computeAtomResiduals, parameters. simpl.
  apply bind_ext; [reflexivity | intros].
  apply bind_ext; [intros; apply makeDepartureState_tail | intros].
  reflexivity.
Qed.

Lemma run_gsl_tail {A} (c : Callback A) :
  forall st, run_gsl long_bundle c st = run_gsl short_bundle c st.
Proof.
  induction c as [v | point buffer k IH]; intros st; simpl;
    [reflexivity |].
  apply bind_ext; [apply computeAtomResiduals_tail | auto].
Qed.

Lemma loop_body_tail counter solver summary st :
  loop_body (p0 :: p1 :: p2 :: p_rest) epoch (a0 :: a1 :: a2 :: a_rest)
    tof reference mu radius absTol relTol maxIter counter solver summary st
  = loop_body [p0; p1; p2] epoch [a0; a1; a2]
      tof reference mu radius absTol relTol maxIter counter solver summary
      st.
Proof.
  unfold loop_body, solver_iterate.
  apply bind_ext; [| reflexivity].
  intros s. apply bind_ext; [reflexivity | intros; apply run_gsl_tail].
Qed.

Lemma do_while_tail fuel :
  forall counter solver summary st,
    do_while (p0 :: p1 :: p2 :: p_rest) epoch (a0 :: a1 :: a2 :: a_rest)
      tof reference mu radius absTol relTol maxIter fuel counter solver
      summary st
    = do_while [p0; p1; p2] epoch [a0; a1; a2]
        tof reference mu radius absTol relTol maxIter fuel counter solver
        summary st.
Proof.
  induction fuel as [| fuel IH]; intros counter solver summary st; simpl;
    (apply bind_ext; [intros; apply loop_body_tail |]);
    intros [[[status c] s] sum] st';
    destruct ((status =? GSL_CONTINUE) && (c <? maxIter)); auto.
Qed.

(** X2. Vectors of more than three components are accepted as they are:
    [executeAtomSolver] never reads the components past the third of the
    departure position, of the arrival position or of the velocity guess,
    and ends as it does on the first three components of each. *)
Theorem components_past_the_third_unread g0 g1 g2 g_rest st :
  executeAtomSolver (p0 :: p1 :: p2 :: p_rest) epoch
    (a0 :: a1 :: a2 :: a_rest) tof (g0 :: g1 :: g2 :: g_rest)
    reference mu radius absTol relTol maxIter st
  = executeAtomSolver [p0; p1; p2] epoch [a0; a1; a2] tof [g0; g1; g2]
      reference mu radius absTol relTol maxIter st.
Proof.
  unfold executeAtomSolver. apply bind_ext.
  - intros s. unfold executeAtomSolver_iterate.
    rewrite !(bind_Normal _ _ _ _ _ (read_guess_3 _ _ _ _ _)).
    apply bind_ext; [| intros; apply do_while_tail].
    intros s'. unfold solver_set.
    apply bind_ext; [reflexivity | intros; apply run_gsl_tail].
  - intros [[[status c] solver] sum] s.
    unfold executeAtomSolver_finish.
    apply bind_ext; [reflexivity | intros].
    apply bind_ext; [reflexivity | intros].
    apply bind_ext; [reflexivity | intros].
    apply bind_ext; [intros; apply makeDepartureState_tail | intros].
    reflexivity.
Qed.

End Tails.

End Properties.

(** * The claims on the test double *)

Section Examples.

Import Toy.
#[local] Existing Instance toy_real.
Local Open Scope Q_scope.

Local Abbreviation relaxation := (toy_outside (1 # 2) None).
Local Abbreviation breaking := (toy_outside (1 # 2) (Some 1%nat)).
Local Abbreviation converging_solve :=
  (solve (1 # 2) None 2 [1; 1; 1] 100 start).
Local Abbreviation breaking_solve :=
  (solve (1 # 2) (Some 1%nat) 2 [1; 1; 1] 100 start).

(** C1, counterexample.  A time of flight of 0 is not rejected: the
    Root-Finder is initialised on the guess, the propagator is invoked
    with that time of flight, and the call returns a pair of
    velocities after three passes. *)
Lemma zero_time_of_flight_is_solved :
  Qle_bool 0 0 = true /\
  fst (solve (1 # 2) None 0 [1; 1; 1] 3 start)
  = Normal ([7; 4; 1], [7; 4; 1]) /\
  In (EvSolverSet [1; 1; 1])
     (calls (snd (solve (1 # 2) None 0 [1; 1; 1] 3 start))) /\
  In (EvFindPosition 0)
     (calls (snd (solve (1 # 2) None 0 [1; 1; 1] 3 start))).
Proof.
  split; [reflexivity |]. split; [vm_compute; reflexivity |].
  split; vm_compute; tauto.
Qed.

(** C2, counterexample.  With a budget of one iteration that does not
    converge, the loop is left on [GSL_CONTINUE] and the count reported
    is 0, not the budget. *)
Lemma exhausted_count_is_not_the_budget :
  fst (iterations (1 # 2) None 2 [1; 1; 1] 1 start)
  = Normal (GSL_CONTINUE, 1%Z, stepped,
            [SHeader; SRow (H0 := relaxation) 0 seeded]) /\
  numberOfIterations (snd (solve (1 # 2) None 2 [1; 1; 1] 1 start)) = 0%Z /\
  numberOfIterations (snd (solve (1 # 2) None 2 [1; 1; 1] 1 start)) <> 1%Z.
Proof.
  split; [vm_compute; reflexivity |].
  split; [vm_compute; reflexivity | vm_compute; discriminate].
Qed.

(** C5, counterexample.  On a candidate at rest the conversion fails,
    and the evaluator returns no code at all, so no failure code: the
    exception of the conversion leaves it. *)
Lemma failed_conversion_returns_no_code :
  adapters (H0 := relaxation) (bundle (1 # 2) None 2 100)
           ([1; 0; 0] ++ [0; 0; 0])
  = inl (library_exception "no orbit through a state at rest") /\
  fst (computeAtomResiduals (H0 := relaxation) [0; 0; 0]
         (bundle (1 # 2) None 2 100) [0; 0; 0] start)
  = Throw (library_exception "no orbit through a state at rest") /\
  ~ exists code r st',
      computeAtomResiduals (H0 := relaxation) [0; 0; 0]
        (bundle (1 # 2) None 2 100) [0; 0; 0] start
      = (Normal (code, r), st').
Proof.
  split; [vm_compute; reflexivity |].
  split; [vm_compute; reflexivity |].
  intros (code & r & st' & E). vm_compute in E. discriminate.
Qed.

(** The solve that converges at the second pass. *)
Lemma converging_loop :
  iterations (1 # 2) None 2 [1; 1; 1] 100 start
  = (Normal (GSL_SUCCESS, 2%Z, settled,
             [SHeader; SRow (H0 := relaxation) 0 seeded;
              SRow (H0 := relaxation) 1 stepped]),
     after_two_steps).
Proof. vm_compute. reflexivity. Qed.

(** The solve whose Root-Finder breaks down at the second pass: the
    head of that pass. *)
Lemma breaking_second_pass :
  Iterating (H0 := breaking) [1; 0; 0] 0%Z [5; 2; 0] 2 [1; 1; 1] [] 1 1
            (1 # 10000000000) (1 # 100000) 100 start
            1 stepped [SHeader; SRow (H0 := breaking) 0 seeded]
            after_one_step.
Proof.
  eapply Iterating_next with (counter := 0%Z) (solver := seeded)
                             (summary := [SHeader]) (st := after_set).
  - eapply Iterating_first with (initialGuess := [1; 1; 1]%Q)
                                (st := start);
      vm_compute; reflexivity.
  - vm_compute. reflexivity.
  - lia.
Qed.

(** C2 on the converging solve: two passes, a count of 1. *)
Lemma numberOfIterations_reported_witness :
  numberOfIterations (snd converging_solve) = (2 - 1)%Z /\
  (0 <= numberOfIterations (snd converging_solve) < 100)%Z.
Proof.
  destruct (numberOfIterations_reported (H0 := relaxation)
              _ _ _ _ _ _ _ _ _ _ _ _ _ _ _ _ _ converging_loop)
    as (Hn & _ & Hconv & _).
  split; [exact Hn | apply Hconv; [lia | reflexivity]].
Defined.

(** C3 on the guess [1, 1, 1]: the body arrives at [3, 2, 2], off the
    target by [-2, 0, 2]. *)
Lemma computeAtomResiduals_as_designed_witness :
  fst (computeAtomResiduals (H0 := relaxation) [1; 1; 1]
         (bundle (1 # 2) None 2 100) [0; 0; 0] start)
  = Normal (GSL_SUCCESS, [-2; 0; 2]).
Proof.
  apply (computeAtomResiduals_as_designed (H0 := relaxation)
           (bundle (1 # 2) None 2 100) [1; 1; 1] [0; 0; 0] start);
    reflexivity.
Defined.

(** C4 on the converging solve: the test fails on the first step and
    holds on the second, which is null. *)
Lemma convergence_is_the_step_test_witness :
  toy_test_delta [0; 0; 0] [2; 1; 0] (1 # 10000000000) (1 # 100000)
  = GSL_SUCCESS /\
  toy_test_delta [1; 0; -1] [2; 1; 0] (1 # 10000000000) (1 # 100000)
  = GSL_CONTINUE.
Proof.
  destruct (convergence_is_the_step_test (H0 := relaxation)
              _ _ _ _ _ _ _ _ _ _ _ _ _ _ _ _ _ converging_loop)
    as (Hlast & _ & Hrows & _).
  split; [symmetry; exact Hlast |].
  apply (Hrows 1%Z stepped); [simpl; tauto | lia].
Defined.

(** C5 on a candidate at rest, which the conversion refuses. *)
Lemma computeAtomResiduals_failure_unwinds_witness :
  fst (computeAtomResiduals (H0 := relaxation) [0; 0; 0]
         (bundle (1 # 2) None 2 100) [0; 0; 0] start)
  = Throw (library_exception "no orbit through a state at rest").
Proof.
  apply (computeAtomResiduals_failure_unwinds (H0 := relaxation)
           (bundle (1 # 2) None 2 100) [0; 0; 0] [0; 0; 0] start);
    reflexivity.
Defined.

(** C6 on the solve whose Root-Finder reports [GSL_ENOPROG] at the second
    pass. *)
Lemma stuck_solver_aborts_witness :
  breaking_solve
  = (Throw (runtime_error "ERROR: Non-linear solver is stuck!"),
     mkState "unset" (-7)
       [OStr "GSL solver status: "; OInt 27; OEndl;
        OStr (str [SHeader; SRow (H0 := breaking) 0 seeded;
                   SRow (H0 := breaking) 1 stepped]);
        OEndl; OEndl]
       (calls after_breakdown)).
Proof.
  apply (stuck_solver_aborts (H0 := breaking)
           _ _ _ _ _ _ _ _ _ _ _ start 1%Z stepped
           [SHeader; SRow (H0 := breaking) 0 seeded]
           after_one_step 27%Z stepped
           after_breakdown breaking_second_pass).
  - vm_compute. reflexivity.
  - discriminate.
Defined.

(** C7 on the converging solve: two rows for a count of 1. *)
Lemma trace_rows_witness :
  exists trace,
    solverStatusSummary (snd converging_solve)
    = str (H0 := relaxation) trace /\
    length (rows trace) = 2%nat /\
    hd_error (rows trace) = Some (0%Z, seeded).
Proof.
  destruct (trace_rows (H0 := relaxation)
              _ _ _ _ _ _ _ _ _ _ _ _ _ _ _ _ _ converging_loop)
    as (trace & Hs & Hlen & _ & g & st_g & seed & st_s & Hg & Hset & Hhd).
  exists trace. split; [exact Hs |]. split.
  - apply Nat2Z.inj. rewrite Hlen. vm_compute. reflexivity.
  - rewrite Hhd. vm_compute in Hg. inversion Hg; subst g st_g.
    vm_compute in Hset. inversion Hset. reflexivity.
Defined.

(** C10 on the solve whose Root-Finder breaks down: the caller still
    finds what it had put in the two variables. *)
Lemma stuck_leaves_references_witness :
  fst breaking_solve = Throw stuck /\
  solverStatusSummary (snd breaking_solve) = "unset"%string /\
  numberOfIterations (snd breaking_solve) = (-7)%Z.
Proof.
  apply (stuck_leaves_references (H0 := breaking)
           _ _ _ _ _ _ _ _ _ _ _ start 1%Z stepped
           [SHeader; SRow (H0 := breaking) 0 seeded]
           after_one_step 27%Z stepped
           after_breakdown breaking_second_pass).
  - vm_compute. reflexivity.
  - discriminate.
Defined.

(** ** Further properties on the test double *)

Local Abbreviation leaping := (leaping_outside (1 # 4)).

(** The head of the first pass of the converging solve, and of its
    second. *)
Lemma converging_first_pass :
  Iterating (H0 := relaxation) [1; 0; 0] 0%Z [5; 2; 0] 2 [1; 1; 1] [] 1 1
            (1 # 10000000000) (1 # 100000) 100 start
            0 seeded [SHeader] after_set.
Proof.
  eapply Iterating_first with (initialGuess := [1; 1; 1]%Q) (st := start);
    vm_compute; reflexivity.
Qed.

Lemma converging_second_pass :
  Iterating (H0 := relaxation) [1; 0; 0] 0%Z [5; 2; 0] 2 [1; 1; 1] [] 1 1
            (1 # 10000000000) (1 # 100000) 100 start
            1 stepped [SHeader; SRow (H0 := relaxation) 0 seeded]
            after_one_step.
Proof.
  eapply Iterating_next; [apply converging_first_pass | | lia].
  vm_compute. reflexivity.
Qed.

(** The solve from the guess [-2, -1, 0] with a gain of one quarter,
    whose first step lands on a velocity at rest: the head of its first
    pass. *)
Lemma resting_first_pass :
  Iterating (H0 := toy_outside (1 # 4) None) [1; 0; 0] 0%Z [5; 2; 0] 2
            [-2; -1; 0] [] 1 1 (1 # 10000000000) (1 # 100000) 100 start
            0 resting_seed [SHeader] resting_set.
Proof.
  eapply Iterating_first with (initialGuess := [-2; -1; 0]%Q) (st := start);
    vm_compute; reflexivity.
Qed.

(** The leaping solve with a budget of one step, left on the velocity at
    rest that it has not evaluated. *)
Lemma leaping_loop :
  leaping_iterations (1 # 4) 2 [-2; -1; 0] 1 start
  = (Normal (GSL_CONTINUE, 1%Z, mkToy [0; 0; 0] [2; 1; 0] [-8; -4; 0] 1,
             [SHeader; SRow (H0 := leaping) 0 resting_seed]),
     mkState "unset" (-7) []
       (calls resting_set ++
        [EvSolverIterate; EvConvert [1; 0; 0; -2; -1; 0];
         EvFindPosition 2])).
Proof. vm_compute. reflexivity. Qed.

(** X1 on a guess of two components. *)
Lemma short_guess_is_undefined_witness :
  solve (1 # 2) None 2 [1; 1] 100 start = (Undefined, start).
Proof.
  apply (short_guess_is_undefined (H0 := relaxation)).
  simpl. lia.
Defined.

(** X3 on the guess [1, 1, 1]: one conversion, one propagation. *)
Lemma computeAtomResiduals_calls_witness :
  calls (snd (computeAtomResiduals (H0 := relaxation) [1; 1; 1]
                (bundle (1 # 2) None 2 100) [0; 0; 0] start))
  = [EvConvert [1; 0; 0; 1; 1; 1]; EvFindPosition 2].
Proof.
  rewrite (computeAtomResiduals_calls (H0 := relaxation)
             (bundle (1 # 2) None 2 100) [1; 1; 1] [0; 0; 0] start);
    reflexivity.
Defined.

(** X6 on the converging solve. *)
Lemma velocities_returned_witness :
  fst converging_solve = Normal ([2; 1; 0], [2; 1; 0]).
Proof.
  apply (velocities_returned (H0 := relaxation)
           _ _ _ _ _ _ _ _ _ _ _ _ _ _ _ _ _ converging_loop);
    reflexivity.
Defined.

(** X7 on the leaping solve: the conversion of the final state fails
    after a count of 0 and the summary of an unconverged loop have been
    assigned. *)
Lemma late_failure_after_assignment_witness :
  fst (leaping_solve (1 # 4) 2 [-2; -1; 0] 1 start)
  = Throw (library_exception "no orbit through a state at rest") /\
  numberOfIterations (snd (leaping_solve (1 # 4) 2 [-2; -1; 0] 1 start))
  = (1 - 1)%Z /\
  solverStatusSummary (snd (leaping_solve (1 # 4) 2 [-2; -1; 0] 1 start))
  = str ([SHeader; SRow (H0 := leaping) 0 resting_seed]
         ++ status_lines GSL_CONTINUE).
Proof.
  apply (late_failure_after_assignment (H0 := leaping)
           _ _ _ _ _ _ _ _ _ _ _ _ _ _ _ _ _ _ leaping_loop);
    reflexivity.
Defined.

(** X8 on the solve whose first step lands on a velocity at rest. *)
Lemma evaluation_failure_unwinds_witness :
  solve (1 # 4) None 2 [-2; -1; 0] 100 start
  = (Throw (library_exception "no orbit through a state at rest"),
     resting_failed) /\
  cerr resting_failed = cerr start.
Proof.
  destruct (evaluation_failure_unwinds (H0 := toy_outside (1 # 4) None)
              _ _ _ _ _ _ _ _ _ _ _ _ _ _ _ _
              (library_exception "no orbit through a state at rest")
              resting_failed resting_first_pass)
    as (Hrun & Hcerr & _).
  - vm_compute. reflexivity.
  - split; [exact Hrun | exact Hcerr].
Defined.

(** X9 on the converging solve: the second pass leaves the loop. *)
Lemma loop_left_after_test_witness :
  iterations (1 # 2) None 2 [1; 1; 1] 100 start
  = (Normal (toy_test_delta (toy_dx settled) (toy_x settled)
               (1 # 10000000000) (1 # 100000),
             (1 + 1)%Z, settled,
             [SHeader; SRow (H0 := relaxation) 0 seeded]
             ++ [SRow (H0 := relaxation) 1 stepped]),
     after_two_steps) /\
  numberOfIterations (snd converging_solve) = 1%Z.
Proof.
  apply (loop_left_after_test (H0 := relaxation)
           _ _ _ _ _ _ _ _ _ _ _ _ _ _ _ _ settled after_two_steps
           converging_second_pass).
  - vm_compute. reflexivity.
  - left. vm_compute. discriminate.
Defined.

(** X10 on the converging solve. *)
Lemma status_summary_layout_witness :
  solverStatusSummary (snd converging_solve)
  = String.append "# x dx f"
      (String.append "rowrow"
         (String.append endl
            (String.append "Status of non-linear solver: "
               (String.append "success" (String.append endl endl))))).
Proof.
  apply (status_summary_layout (H0 := relaxation)
           _ _ _ _ _ _ _ _ _ _ _ _ _ _ _ _ _ converging_loop).
Defined.

(** X11 on the converging solve: from the seed to the first step, from
    the first step to the second. *)
Lemma table_is_the_history_witness :
  linked (next_row (H0 := relaxation) [1; 0; 0] 0%Z [5; 2; 0] 2 [] 1 1
            (1 # 10000000000) (1 # 100000) 100)
         [(0%Z, seeded); (1%Z, stepped); (2%Z, settled)].
Proof.
  apply (table_is_the_history (H0 := relaxation)
           _ _ _ _ _ _ _ _ _ _ _ _ _ _ _ _ _ converging_loop).
Defined.

End Examples.
